(** * mongodb-elasticsearch-sync: schema inference, mapping compilation,
      document normalisation and the bulk-load loop of [src/index.ts].

    The development follows the source file from its leaves upwards:
    [findBestProbabilityType], [getCollectionSchema], [getMapping],
    [serialize] and the synchronisation loop of [run].  JavaScript objects
    used as dictionaries are finite maps, arrays are lists, and the calls to
    the document store and to the search engine are functions on an abstract
    world state. *)

From Stdlib Require Import QArith Qcanon.
From stdpp Require Import base option list strings gmap fin_maps numbers.

Set Default Proof Using "Type".
Set Warnings "-register-all,-clear-no-such-hyp".
Local Open Scope string_scope.
Local Open Scope list_scope.

(** ** Output of the schema probe (package [mongodb-schema])

    A probed field carries the list of the types its values took in the
    sample; every such type has a name and the share of the sample it
    covers.  An [Array] type lists the types of its elements under [types],
    a [Document] type lists its nested fields under [fields]; the program
    reads [types] only from an [Array] and [fields] only from a [Document],
    and the other types have them empty here.  The shares are finite numbers
    between 0 and 1, compared here as rationals. *)

Inductive SchemaType := mkSchemaType {
  tname : string;
  probability : Qc;
  types : list SchemaType;
  fields : list SchemaField
}
with SchemaField := mkSchemaField {
  fname : string;
  ftypes : list SchemaType
}.

(** What [findBestProbabilityType] hands back: one of the observations it was
    given, or the fresh object [{ name: "String" }], which has a name and
    nothing else. *)
Inductive BestType :=
  | Best (t : SchemaType)
  | AssumedString.

Definition bestName (b : BestType) : string :=
  match b with
  | Best t => tname t
  | AssumedString => "String"
  end.

(** The callback of [reduce]: [type.probability > max.probability ? type : max]. *)
Definition pickMax (max type : SchemaType) : SchemaType :=
  if bool_decide (probability max < probability type)%Qc then type else max.

(** [findBestProbabilityType] (index.ts, lines 202-213).  The test on the
    length of the filtered array and the [reduce] without initial value, which
    starts from the first element, are one match on the filtered list. *)
Definition findBestProbabilityType (ts : list SchemaType) : BestType :=
  match filter (λ t, tname t ≠ "Undefined") ts with
  | [] => AssumedString
  | first :: rest => Best (fold_left pickMax rest first)
  end.

(** ** Collection schemas ([getCollectionSchema], index.ts, lines 166-200) *)

(** One entry of [fields] in a collection schema.  The branch for plain types
    builds an object without [isArray], hence the option. *)
Record ResolvedField := mkResolvedField {
  rf_name : string;
  rf_type : string;
  isArray : option bool
}.

(** The entry of the array returned by [listCollections]. *)
Record Collection := mkCollection { c_name : string }.

(** The result of the schema probe for one collection. *)
Record Schema := mkSchema { s_fields : list SchemaField }.

(** [fields] holds [null] (here [None]) where the callback of [map] returned
    [null]. *)
Record CollectionSchema := mkCollectionSchema {
  cs_name : string;
  cs_fields : list (option ResolvedField)
}.

(** The condition of the inner [if]: both [find] calls answer an element and
    the array has length 2. *)
Definition isLatLon (fs : list SchemaField) : bool :=
  bool_decide (is_Some (List.find (λ f, String.eqb (fname f) "lat") fs)) &&
  bool_decide (is_Some (List.find (λ f, String.eqb (fname f) "lon") fs)) &&
  Nat.eqb (length fs) 2.

(** The callback given to [schema.fields.map].  For the object
    [{ name: "String" }] only the last branch can be taken. *)
Definition resolveField (s : SchemaField) : option ResolvedField :=
  match findBestProbabilityType (ftypes s) with
  | AssumedString =>
      Some {| rf_name := fname s; rf_type := "String"; isArray := None |}
  | Best type =>
      if String.eqb (tname type) "Array" then
        Some {| rf_name := fname s;
                rf_type := bestName (findBestProbabilityType (types type));
                isArray := Some true |}
      else if String.eqb (tname type) "Document" then
        if isLatLon (fields type) then
          Some {| rf_name := fname s; rf_type := "GeoPoint";
                  isArray := Some false |}
        else
          (* We currently ignore nested documents. *)
          None
      else
        Some {| rf_name := fname s; rf_type := tname type; isArray := None |}
  end.

Definition getCollectionSchema (collection : Collection) (schema : Schema)
    : CollectionSchema :=
  {| cs_name := c_name collection;
     cs_fields := map resolveField (s_fields schema) |}.

(** ** Values, and what the program takes from its runtime *)

(** The values of a document.  [VDate time] is the date [new Date(time)]:
    its time value is [time], in milliseconds since the epoch, when [time]
    is within 8.64e15 of the epoch, and it has no time value (it is an
    invalid date) otherwise.  An object carries its own enumerable
    properties and inherits from [Object.prototype]; [VObject] is a plain
    object, as an object literal makes it, and [VInstance] is an instance of
    a class other than [Date] and [Array] (an [ObjectID], a [Buffer]), with
    the name of its class. *)
Inductive Value :=
  | VUndefined
  | VNull
  | VBool (b : bool)
  | VNumber (x : Qc)
  | VString (s : string)
  | VDate (time : Z)
  | VArray (elements : list Value)
  | VObject (props : gmap string Value)
  | VInstance (class : string) (props : gmap string Value).

(** The number of objects in a value outside arrays, the measure for
    induction on values. *)
Fixpoint weight (v : Value) : nat :=
  match v with
  | VObject props | VInstance _ props =>
      S (map_fold (λ _ v' n, weight v' + n) 0 props)
  | _ => 0
  end.

(** A date has a time value when it lies within 100,000,000 days of the
    epoch. *)
Definition validTime (time : Z) : bool :=
  (-8640000000000000 <=? time)%Z && (time <=? 8640000000000000)%Z.

(** The assignment [object[key] = x] on an object made by [{}].  Under the
    key [__proto__] it reaches the setter that the object inherits from
    [Object.prototype]: the prototype of the object is set or the assignment
    is ignored, and the own properties stay as they are. *)
Definition setProperty {A} (key : string) (x : A) (object : gmap string A)
    : gmap string A :=
  if String.eqb key "__proto__" then object else <[key := x]> object.

(** The functions of the runtime and of the packages that the program calls
    on values. *)
Class Runtime := {
  (** [pluralize.singular], the singularisation of the package [pluralize]. *)
  singular : string → string;
  (** [Date.prototype.toISOString], on the time value of a date that has
      one. *)
  toISOString : Z → string;
  (** The conversion of a value to a string, as in a template literal. *)
  toStringJS : Value → string
}.

(** ** Index mappings ([getMapping], index.ts, lines 131-164) *)

Record Keyword := mkKeyword { kw_type : string; ignore_above : Z }.
Record SubFields := mkSubFields { keyword : Keyword }.

(** An entry of the property table: [{ type: ... }], with [fields] for text. *)
Record IndexProperty := mkIndexProperty {
  p_type : string;
  p_fields : option SubFields
}.

Record TypeMapping := mkTypeMapping { properties : gmap string IndexProperty }.
Record MappingBody := mkMappingBody { _doc : TypeMapping }.

Record IndexMapping := mkIndexMapping {
  index : string;
  m_type : string;
  include_type_name : bool;
  body : MappingBody
}.

Definition exclude : list string := ["id"; "__v"; "_id"].

(** The body of the [for] loop: one assignment [mapping[field.name] = ...],
    or none when no branch of the chain applies.  [mapping] is the table of
    the own properties of the object, which is what the search engine is
    sent. *)
Definition assignProperty (mapping : gmap string IndexProperty)
    (field : ResolvedField) : gmap string IndexProperty :=
  if String.eqb (rf_type field) "String" then
    setProperty (rf_name field)
      {| p_type := "text";
         p_fields := Some {| keyword := {| kw_type := "keyword";
                                           ignore_above := 256 |} |} |}
      mapping
  else if String.eqb (rf_type field) "Number" then
    setProperty (rf_name field) {| p_type := "double"; p_fields := None |}
      mapping
  else if String.eqb (rf_type field) "Boolean" then
    setProperty (rf_name field) {| p_type := "boolean"; p_fields := None |}
      mapping
  else if String.eqb (rf_type field) "Date" then
    setProperty (rf_name field) {| p_type := "date"; p_fields := None |}
      mapping
  else if String.eqb (rf_type field) "GeoPoint" then
    setProperty (rf_name field) {| p_type := "geo_point"; p_fields := None |}
      mapping
  else mapping.

(** The fields the loop runs over: [fields.filter((f) => f)] drops the
    [null] entries, the second filter drops the excluded names. *)
Definition mappedFields (fs : list (option ResolvedField)) : list ResolvedField :=
  filter (λ f, rf_name f ∉ exclude) (omap id fs).

Section Naming.

Context `{Runtime}.

Definition getMapping (collectionSchema : CollectionSchema)
    (singularize : bool) : IndexMapping :=
  let name := cs_name collectionSchema in
  let fields := cs_fields collectionSchema in
  let mapping := fold_left assignProperty (mappedFields fields) ∅ in
  {| index := if singularize then singular name else name;
     m_type := "_doc";
     include_type_name := true;
     body := {| _doc := {| properties := mapping |} |} |}.

End Naming.

(** ** Documents and their normalisation ([serialize], index.ts, lines 215-230) *)

Section Normalizer.

Context `{Runtime}.

(** The loop over [Object.keys(data)], from the empty [result]: one
    assignment [result[key] = ...] per key of [data], of the value that
    [convert] makes of the value found there.  [None] when some call of
    [convert] throws. *)
Definition buildResult (convert : Value → option Value)
    (data : gmap string Value) : option (gmap string Value) :=
  map_fold (λ key value result,
              result ← result;
              x ← convert value;
              Some (setProperty key x result))
           (Some ∅) data.

(** What the loop stores under a key, from the value found there.  [None]
    when [toISOString] throws a [RangeError], which it does on a date that
    has no time value.  The test [instanceof Object] holds of plain objects
    and of instances alike, and [serialize] reads their own enumerable
    properties only. *)
Fixpoint serializeValue (value : Value) : option Value :=
  match value with
  | VDate time =>
      if validTime time then Some (VString (toISOString time)) else None
  | VArray elements => Some (VArray elements)
  | VObject props | VInstance _ props =>
      VObject <$> buildResult serializeValue props
  | _ => Some value
  end.

(** [serialize]; [None] when it throws. *)
Definition serialize (data : gmap string Value)
    : option (gmap string Value) :=
  buildResult serializeValue data.

End Normalizer.

(** ** The synchronisation loop of [run] (index.ts, lines 92-127) *)

(** The action descriptor [{ index: { _index, _type, _id } }]. *)
Record IndexAction := mkIndexAction {
  _index : string;
  _type : string;
  _id : string
}.

(** The array [bulk] alternates action descriptors and document bodies. *)
Inductive BulkItem :=
  | ActionItem (action : IndexAction)
  | DocumentItem (data : gmap string Value).

Record BulkRequest := mkBulkRequest {
  refresh : bool;
  bulk_body : list BulkItem
}.

(** The answer of the search engine; [error] is [None] when the answer has no
    such property. *)
Record BulkResponse := mkBulkResponse { error : option Value }.

(** The condition of an [if] on a value. *)
Definition truthy (v : Value) : bool :=
  match v with
  | VUndefined | VNull => false
  | VBool b => b
  | VNumber x => negb (bool_decide (x = 0%Qc))
  | VString s => negb (String.eqb s "")
  | VDate _ | VArray _ | VObject _ | VInstance _ _ => true
  end.

(** What the loop does that the outside can see. *)
Inductive Event :=
  | Log (message : string)
  | EstimatedDocumentCount (collection : string)
  | Find (collection : string)
  | Bulk (request : BulkRequest).

(** What an awaited call to the outside comes back with: the value its
    promise is resolved with, or the error it is rejected with. *)
Inductive Answer (A : Type) :=
  | Resolves (a : A)
  | Rejects (err : Value).
Arguments Resolves {A} a.
Arguments Rejects {A} err.

(** [this.error] throws a [CLIError]; a method call on [undefined] or [null]
    throws a [TypeError]; [toISOString] throws a [RangeError]; [await] on a
    rejected promise throws the error of the rejection. *)
Inductive Thrown :=
  | CLIError (message : string)
  | TypeError
  | RangeError
  | Rejection (err : Value).

Inductive Result (A : Type) :=
  | Returned (a : A)
  | Threw (e : Thrown).
Arguments Returned {A} a.
Arguments Threw {A} e.

(** The calls to the document store and to the search engine, which are
    one state [World]: [db.collection(name).estimatedDocumentCount()],
    [db.collection(name).find().toArray()] and [es.bulk(request)]. *)
Class Servers (World : Type) := {
  estimatedDocumentCount : string → World → Answer Qc * World;
  find : string → World → Answer (list (gmap string Value)) * World;
  esBulk : BulkRequest → World → Answer BulkResponse * World
}.

Section Orchestrator.

Context {World : Type} `{Runtime} `{Servers World}.

Record State := mkState { world : World; trace : list Event }.

(** A computation of [run]: it moves the state and returns or throws. *)
Definition M (A : Type) : Type := State → Result A * State.

#[export] Instance M_ret : MRet M := λ A a st, (Returned a, st).
#[export] Instance M_bind : MBind M := λ A B f m st,
  match m st with
  | (Returned a, st') => f a st'
  | (Threw e, st') => (Threw e, st')
  end.
#[export] Instance M_throw : MThrow Thrown M := λ A e st, (Threw e, st).

Definition emit (e : Event) : M unit :=
  λ st, (Returned (), {| world := world st; trace := trace st ++ [e] |}).

(** An awaited call to the outside: it is recorded, and the world resolves
    or rejects it. *)
Definition call {A} (e : Event) (f : World → Answer A * World) : M A :=
  λ st, let '(a, w) := f (world st) in
        (match a with
         | Resolves x => Returned x
         | Rejects err => Threw (Rejection err)
         end,
         {| world := w; trace := trace st ++ [e] |}).

(** [_id.toString()], where [_id] was read from the document. *)
Definition idToString (_id : option Value) : option string :=
  match _id with
  | None | Some VUndefined | Some VNull => None
  | Some v => Some (toStringJS v)
  end.

(** The loop over [collectionData]: two [push] per document, the first of
    which evaluates [_id.toString()] and the second [this.serialize(data)];
    either can throw. *)
Fixpoint pushDocuments (singularizeName : bool)
    (collectionSchema : CollectionSchema) (bulk : list BulkItem)
    (collectionData : list (gmap string Value)) : Result (list BulkItem) :=
  match collectionData with
  | [] => Returned bulk
  | document :: more =>
      let data := delete "__v" (delete "_id" document) in
      match idToString (document !! "_id") with
      | None => Threw TypeError
      | Some id =>
          match serialize data with
          | None => Threw RangeError
          | Some body =>
              pushDocuments singularizeName collectionSchema
                (bulk ++
                 [ActionItem
                    {| _index := if singularizeName
                                 then singular (cs_name collectionSchema)
                                 else cs_name collectionSchema;
                       _type := "_doc";
                       _id := id |};
                  DocumentItem body])
                more
          end
      end
  end.

(** The body of the loop over [collectionsSchemas]. *)
Definition syncCollection (singularizeName : bool)
    (collectionSchema : CollectionSchema) : M unit :=
  let name := cs_name collectionSchema in
  emit (Log (" Syncing " +:+ name));;
  estimatedDocsCount ←
    call (EstimatedDocumentCount name) (estimatedDocumentCount name);
  emit (Log (" Estimated documents count: " +:+
             toStringJS (VNumber estimatedDocsCount)));;
  collectionData ← call (Find name) (find name);
  match pushDocuments singularizeName collectionSchema [] collectionData with
  | Threw e => mthrow e
  | Returned [] => mret ()
  | Returned bulk =>
      let request := {| refresh := true; bulk_body := bulk |} in
      res ← call (Bulk request) (esBulk request);
      match error res with
      | Some e =>
          if truthy e
          then mthrow (CLIError ("Error syncing " +:+ name +:+ ": " +:+
                                 toStringJS e))
          else mret ()
      | None => mret ()
      end
  end.

(** The first half of that body: what was fetched and the state reached
    once [find] has answered. *)
Definition afterFetch (collectionSchema : CollectionSchema)
    : M (list (gmap string Value)) :=
  let name := cs_name collectionSchema in
  emit (Log (" Syncing " +:+ name));;
  estimatedDocsCount ←
    call (EstimatedDocumentCount name) (estimatedDocumentCount name);
  emit (Log (" Estimated documents count: " +:+
             toStringJS (VNumber estimatedDocsCount)));;
  call (Find name) (find name).

(** The loop over [collectionsSchemas]. *)
Fixpoint syncCollections (singularizeName : bool)
    (collectionsSchemas : list CollectionSchema) : M unit :=
  match collectionsSchemas with
  | [] => mret ()
  | collectionSchema :: more =>
      syncCollection singularizeName collectionSchema;;
      syncCollections singularizeName more
  end.

End Orchestrator.

Arguments State : clear implicits.
Arguments M : clear implicits.

(** ** The tables of the specification *)

(** The type-to-index-type table of the Mapping Compiler, as the
    specification lists it. *)
Definition propertyTable : list (string * IndexProperty) :=
  [ ("String", {| p_type := "text";
                  p_fields := Some {| keyword := {| kw_type := "keyword";
                                                    ignore_above := 256 |} |} |});
    ("Number", {| p_type := "double"; p_fields := None |});
    ("Boolean", {| p_type := "boolean"; p_fields := None |});
    ("Date", {| p_type := "date"; p_fields := None |});
    ("GeoPoint", {| p_type := "geo_point"; p_fields := None |}) ].

Definition tableEntry (type : string) : option IndexProperty :=
  snd <$> List.find (λ e, String.eqb type (fst e)) propertyTable.

(** The reserved names that get no property. *)
Definition reservedNames : list string := ["_id"; "__v"; "id"].

(** What the specification has the Mapping Compiler do for one field: put
    the table entry of its type under its name, or nothing when the table
    has none. *)
Definition emitEntry (table : gmap string IndexProperty) (f : ResolvedField)
    : gmap string IndexProperty :=
  match tableEntry (rf_type f) with
  | Some p => <[rf_name f := p]> table
  | None => table
  end.

(** The type names that some branch of the schema compiler or of the mapping
    compiler tests for. *)
Definition recognizedNames : list string :=
  ["String"; "Number"; "Boolean"; "Date"; "GeoPoint"; "Array"; "Document"].

(** A field whose best type is a nested document of another shape than the
    pair [lat], [lon]. *)
Definition ignoredDocument (s : SchemaField) : Prop :=
  ∃ type, findBestProbabilityType (ftypes s) = Best type ∧
          tname type = "Document" ∧
          ¬ map fname (fields type) ≡ₚ ["lat"; "lon"].

(** ** Sample inputs *)

Definition observation (name : string) (p : Qc) : SchemaType :=
  {| tname := name; probability := p; types := []; fields := [] |}.

Definition latLonAlt : SchemaType :=
  {| tname := "Document"; probability := 1%Qc; types := [];
     fields := [ {| fname := "lat"; ftypes := [observation "Number" 1%Qc] |};
                 {| fname := "lon"; ftypes := [observation "Number" 1%Qc] |};
                 {| fname := "alt"; ftypes := [observation "Number" 1%Qc] |} ] |}.

Definition lonLat : SchemaType :=
  {| tname := "Document"; probability := 1%Qc; types := [];
     fields := [ {| fname := "lon"; ftypes := [observation "Number" 1%Qc] |};
                 {| fname := "lat"; ftypes := [observation "Number" 1%Qc] |} ] |}.

Definition placesSchema : Schema :=
  {| s_fields :=
       [ {| fname := "_id"; ftypes := [observation "ObjectID" 1%Qc] |};
         {| fname := "label";
            ftypes := [observation "Undefined" (Q2Qc (1 # 2));
                       observation "String" (Q2Qc (1 # 4));
                       observation "Number" (Q2Qc (1 # 4))] |};
         {| fname := "position"; ftypes := [latLonAlt] |};
         {| fname := "where"; ftypes := [lonLat] |};
         {| fname := "owner"; ftypes := [observation "ObjectID" 1%Qc] |} ] |}.

(** A run on the collections [users] and [places]: stand-ins for what the
    runtime and the two servers answer. *)

Definition runtimeStub : Runtime :=
  {| singular := λ name, if String.eqb name "users" then "user" else name;
     toISOString := λ _, "1970-01-01T00:00:00.000Z";
     toStringJS := λ v, match v with VString s => s | _ => "?" end |}.

Definition ann : gmap string Value :=
  {[ "_id" := VString "1"; "__v" := VNumber 0%Qc; "name" := VString "Ann";
     "signup" := VDate 0;
     "logins" := VArray [VDate 0];
     "address" := VObject {[ "since" := VDate 0; "city" := VString "Pau" ]} ]}.

Definition usersData : list (gmap string Value) := [ann].

(** The body sent for [ann]. *)
Definition annBody : gmap string Value :=
  {[ "name" := VString "Ann";
     "signup" := VString "1970-01-01T00:00:00.000Z";
     "logins" := VArray [VDate 0];
     "address" := VObject {[ "since" := VString "1970-01-01T00:00:00.000Z";
                             "city" := VString "Pau" ]} ]}.

(** The bulk request that the loop builds for [users] when the flag is set. *)
Definition usersRequest : BulkRequest :=
  {| refresh := true;
     bulk_body :=
       [ ActionItem {| _index := "user"; _type := "_doc"; _id := "1" |};
         DocumentItem annBody ] |}.

(** Servers that hold the one document of [users] and nothing in any other
    collection, and that answer every bulk request the same way. *)
Definition serversStub (answer : BulkResponse) : Servers unit :=
  {| estimatedDocumentCount := λ name w,
       (Resolves (if String.eqb name "users" then 1%Qc else 0%Qc), w);
     find := λ name w,
       (Resolves (if String.eqb name "users" then usersData else []), w);
     esBulk := λ request w, (Resolves answer, w) |}.

Definition rejected : BulkResponse :=
  {| error := Some (VString "cluster_block_exception") |}.

Definition accepted : BulkResponse := {| error := None |}.

Definition usersSchema : CollectionSchema :=
  {| cs_name := "users";
     cs_fields := [ Some {| rf_name := "name"; rf_type := "String";
                            isArray := None |} ] |}.

Definition emptySchema : CollectionSchema :=
  {| cs_name := "places"; cs_fields := [] |}.

Definition start : State unit := {| world := (); trace := [] |}.

(** ** The whole of [run] (index.ts, lines 39-129) *)

(** The flags as [this.parse] hands them over; a string flag that was not
    given is [undefined], here [None]. *)
Record Flags := mkFlags {
  mongoUri : option string;
  elasticsearchUri : option string;
  singularizeName : bool
}.

(** The condition [!flag] on a string flag: not given, or empty. *)
Definition notGiven (flag : option string) : bool :=
  match flag with
  | None => true
  | Some uri => String.eqb uri ""
  end.

(** The calls of [run] outside its last loop: [client.connect()],
    [db.listCollections().toArray()], the schema probe, which answers its
    callback with an error and a result (the result [None] when [undefined]),
    the four calls on [es.indices], and [client.close()].  The probe is the
    one call whose failure the program handles itself (lines 7-17); the
    other calls are awaited, and the world resolves or rejects them, but for
    [client.close()], the last statement of [run], which is taken to
    resolve. *)
Class Endpoints (World : Type) := {
  connect : string → World → Answer unit * World;
  listCollections : World → Answer (list Collection) * World;
  parseSchema : string → World → (Value * option Schema) * World;
  indicesExists : string → World → Answer bool * World;
  indicesDelete : string → World → Answer unit * World;
  indicesCreate : string → World → Answer unit * World;
  putMapping : IndexMapping → World → Answer unit * World;
  close : World → World
}.

(** What [run] does that the outside can see: the events of the last loop
    and the log lines, and the calls above. *)
Inductive RunEvent :=
  | Loop (e : Event)
  | Connect (uri : string)
  | ListCollections
  | ParseSchema (collection : string)
  | IndicesExists (index : string)
  | IndicesDelete (index : string)
  | IndicesCreate (index : string)
  | PutMapping (mapping : IndexMapping)
  | Close.

(** How [run] ends: it returns, it throws (on a rejected call to the outside,
    the error of the rejection), or the promise of the schema probe, which
    the program makes itself, is rejected with the error of the probe. *)
Inductive RunResult (A : Type) :=
  | Finished (a : A)
  | Failed (e : Thrown)
  | Rejected (err : Value).
Arguments Finished {A} a.
Arguments Failed {A} e.
Arguments Rejected {A} err.

Section Run.

Context {World : Type} `{Runtime} `{Servers World} `{Endpoints World}.

Record RunState := mkRunState { rworld : World; rtrace : list RunEvent }.

Definition RunM (A : Type) : Type := RunState → RunResult A * RunState.

#[export] Instance RunM_ret : MRet RunM := λ A a st, (Finished a, st).
#[export] Instance RunM_bind : MBind RunM := λ A B f m st,
  match m st with
  | (Finished a, st') => f a st'
  | (Failed e, st') => (Failed e, st')
  | (Rejected err, st') => (Rejected err, st')
  end.

(** [this.error(message)]. *)
Definition fatal {A} (message : string) : RunM A :=
  λ st, (Failed (CLIError message), st).

(** [this.log(message)]. *)
Definition log (message : string) : RunM unit :=
  λ st, (Finished (),
         {| rworld := rworld st; rtrace := rtrace st ++ [Loop (Log message)] |}).

(** An awaited call to the outside: it is recorded, and the world resolves
    or rejects it. *)
Definition ask {A} (e : RunEvent) (f : World → Answer A * World) : RunM A :=
  λ st, let '(a, w) := f (rworld st) in
        (match a with
         | Resolves x => Finished x
         | Rejects err => Failed (Rejection err)
         end,
         {| rworld := w; rtrace := rtrace st ++ [e] |}).

(** A call that is taken to resolve. *)
Definition act (e : RunEvent) (f : World → World) : RunM unit :=
  λ st, (Finished (),
         {| rworld := f (rworld st); rtrace := rtrace st ++ [e] |}).

(** [parseSchemaPromise] (lines 7-17) on the cursor of a collection: the
    promise is rejected with [err] when [err] passes the test [if (err)], and
    is resolved with [result] otherwise. *)
Definition parseSchemaPromise (collection : string) : RunM (option Schema) :=
  λ st, let '((err, result), w) := parseSchema collection (rworld st) in
        let st' := {| rworld := w;
                      rtrace := rtrace st ++ [ParseSchema collection] |} in
        if truthy err then (Rejected err, st') else (Finished result, st').

(** The loop that fills [collectionsSchemas] (lines 60-68).  Reading
    [schema.fields] of [undefined] throws. *)
Fixpoint probeCollections (collections : list Collection)
    (collectionsSchemas : list CollectionSchema)
    : RunM (list CollectionSchema) :=
  match collections with
  | [] => mret collectionsSchemas
  | collection :: more =>
      log (" Getting schema for " +:+ c_name collection +:+ "…");;
      schema ← parseSchemaPromise (c_name collection);
      match schema with
      | None => λ st, (Failed TypeError, st)
      | Some schema =>
          probeCollections more
            (collectionsSchemas ++ [getCollectionSchema collection schema])
      end
  end.

(** The loop over [mappings] (lines 82-88). *)
Fixpoint resetIndices (mappings : list IndexMapping) : RunM unit :=
  match mappings with
  | [] => mret ()
  | mapping :: more =>
      log (" Creating mapping for " +:+ index mapping);;
      exists_ ← ask (IndicesExists (index mapping))
                    (indicesExists (index mapping));
      (if exists_ : bool
       then ask (IndicesDelete (index mapping)) (indicesDelete (index mapping))
       else mret ());;
      ask (IndicesCreate (index mapping)) (indicesCreate (index mapping));;
      ask (PutMapping mapping) (putMapping mapping);;
      resetIndices more
  end.

(** The last loop, as modelled above, run from the state reached; its events
    go to the trace of [run]. *)
Definition syncLoop (singularizeName : bool)
    (collectionsSchemas : list CollectionSchema) : RunM unit :=
  λ st,
    let '(r, st') :=
      syncCollections singularizeName collectionsSchemas
        {| world := rworld st; trace := [] |} in
    (match r with Returned a => Finished a | Threw e => Failed e end,
     {| rworld := world st'; rtrace := rtrace st ++ map Loop (trace st') |}).

Definition run (flags : Flags) : RunM unit :=
  if notGiven (mongoUri flags) then fatal "You must specify a mongoUri"
  else if notGiven (elasticsearchUri flags)
  then fatal "You must specify an elasticsearchUri"
  else
    log "Connecting to source…";;
    ask (Connect (default "" (mongoUri flags)))
        (connect (default "" (mongoUri flags)));;
    log "Getting collections…";;
    collections ← ask ListCollections listCollections;
    collectionsSchemas ← probeCollections collections [];
    log "Convert to schema to elasticsearch mapping…";;
    let mappings :=
      map (λ collectionSchema,
             getMapping collectionSchema (singularizeName flags))
          collectionsSchemas in
    log "Creating elasticsearch index…";;
    resetIndices mappings;;
    log "Syncing mongodb collections to elasticsearch…";;
    syncLoop (singularizeName flags) collectionsSchemas;;
    act Close close.

End Run.

Arguments RunState : clear implicits.
Arguments RunM : clear implicits.

(** ** Notions for the properties beyond the contracts *)

(** No date in a value outside arrays. *)
Fixpoint noDate (v : Value) : bool :=
  match v with
  | VDate _ => false
  | VObject props | VInstance _ props =>
      map_fold (λ _ v' b, noDate v' && b) true props
  | _ => true
  end.

(** Every date of a value outside arrays has a time value. *)
Fixpoint validDates (v : Value) : bool :=
  match v with
  | VDate time => validTime time
  | VObject props | VInstance _ props =>
      map_fold (λ _ v' b, validDates v' && b) true props
  | _ => true
  end.

(** Outside arrays the value holds no date and no instance, and no object
    of it has an own key [__proto__]. *)
Fixpoint plain (v : Value) : bool :=
  match v with
  | VDate _ | VInstance _ _ => false
  | VObject props =>
      bool_decide (props !! "__proto__" = None) &&
      map_fold (λ _ v' b, plain v' && b) true props
  | _ => true
  end.




(** The collections fetched by the last loop, in the order of the trace. *)
Definition fetchedNames (events : list Event) : list string :=
  omap (λ e, match e with Find collection => Some collection | _ => None end)
       events.

(** The bulk requests sent by the last loop, in the order of the trace. *)
Definition bulkRequests (events : list Event) : list BulkRequest :=
  omap (λ e, match e with Bulk request => Some request | _ => None end) events.

(** The calls on [es.indices]. *)
Definition isIndexCall (e : RunEvent) : bool :=
  match e with
  | IndicesExists _ | IndicesDelete _ | IndicesCreate _ | PutMapping _ => true
  | _ => false
  end.

(** The calls of the last loop to the document store and to the search
    engine. *)
Definition isSyncCall (e : RunEvent) : bool :=
  match e with
  | Loop (EstimatedDocumentCount _) | Loop (Find _) | Loop (Bulk _) => true
  | _ => false
  end.

(** The events of the last loop among the events of [run]. *)
Definition loopEvents (events : list RunEvent) : list Event :=
  omap (λ e, match e with Loop e' => Some e' | _ => None end) events.

(** The calls on [es.indices] among the events of [run], in the order of
    the trace. *)
Definition indexCalls (events : list RunEvent) : list RunEvent :=
  filter (λ e, isIndexCall e = true) events.

(** The calls on [es.indices] of one turn of the loop over the mappings
    when every call is resolved, for an index that exists or does not. *)
Definition resetCalls (existed : bool) (mapping : IndexMapping)
    : list RunEvent :=
  IndicesExists (index mapping)
  :: (if existed then [IndicesDelete (index mapping)] else [])
  ++ [IndicesCreate (index mapping); PutMapping mapping].

(** The events of such a turn. *)
Definition resetTurn (existed : bool) (mapping : IndexMapping)
    : list RunEvent :=
  Loop (Log (" Creating mapping for " +:+ index mapping))
  :: resetCalls existed mapping.

(** Every deletion of an index among [events] comes right after the check
    of existence of that index, and either is the last of [events], which
    [atEnd] tells more about, or has the creation of that index right
    after it. *)
Definition deletesInPlace (atEnd : Prop) (events : list RunEvent) : Prop :=
  ∀ before i after, events = before ++ IndicesDelete i :: after →
    (∃ before', before = before' ++ [IndicesExists i]) ∧
    ((after = [] ∧ atEnd) ∨ ∃ after', after = IndicesCreate i :: after').

(** ** Sample inputs for the whole of [run] *)

Definition arrayOf (elements : list SchemaType) : SchemaType :=
  {| tname := "Array"; probability := 1%Qc; types := elements; fields := [] |}.

(** What the probe answers for [users]: an array of strings, an array of
    documents of the shape [lat], [lon], and a field that was never set. *)
Definition usersProbe : Schema :=
  {| s_fields :=
       [ {| fname := "_id"; ftypes := [observation "ObjectID" 1%Qc] |};
         {| fname := "name"; ftypes := [observation "String" 1%Qc] |};
         {| fname := "tags"; ftypes := [arrayOf [observation "String" 1%Qc]] |};
         {| fname := "visits"; ftypes := [arrayOf [lonLat]] |};
         {| fname := "nickname"; ftypes := [observation "Undefined" 1%Qc] |} ] |}.

(** Endpoints that list [users] and [places], answer every probe with the
    same error, and find the index [places] only. *)
Definition endpointsStub (probeError : Value) : Endpoints unit :=
  {| connect := λ uri w, (Resolves (), w);
     listCollections := λ w,
       (Resolves [ {| c_name := "users" |}; {| c_name := "places" |} ], w);
     parseSchema := λ name w,
       ((probeError,
         Some (if String.eqb name "users" then usersProbe else placesSchema)),
        w);
     indicesExists := λ i w, (Resolves (String.eqb i "places"), w);
     indicesDelete := λ i w, (Resolves (), w);
     indicesCreate := λ i w, (Resolves (), w);
     putMapping := λ mapping w, (Resolves (), w);
     close := λ w, w |}.

Definition flagsStub : Flags :=
  {| mongoUri := Some "mongodb://localhost:27017/source";
     elasticsearchUri := Some "http://localhost:9200";
     singularizeName := true |}.

Definition startRun : RunState unit := {| rworld := (); rtrace := [] |}.



(** A document with an [ObjectID] as [_id] and as a reference, and with an
    own key [__proto__]. *)
Definition objectId (hex : string) : Value :=
  VInstance "ObjectID" {[ "id" := VString hex ]}.

Definition carl : gmap string Value :=
  {[ "_id" := objectId "5f1d"; "owner" := objectId "5f1c";
     "__proto__" := VObject {[ "admin" := VBool true ]} ]}.



(** Endpoints that answer as [endpointsStub VNull] does, but for the
    deletion of an index, which they reject. *)
Definition endpointsRefusing : Endpoints unit :=
  {| connect := λ uri w, (Resolves (), w);
     listCollections := λ w,
       (Resolves [ {| c_name := "users" |}; {| c_name := "places" |} ], w);
     parseSchema := λ name w,
       ((VNull,
         Some (if String.eqb name "users" then usersProbe else placesSchema)),
        w);
     indicesExists := λ i w, (Resolves (String.eqb i "places"), w);
     indicesDelete := λ i w, (Rejects (VString "index_closed_exception"), w);
     indicesCreate := λ i w, (Resolves (), w);
     putMapping := λ mapping w, (Resolves (), w);
     close := λ w, w |}.

(** ** Type Resolver *)

Section TypeResolver.

Implicit Types (t w : SchemaType) (l : list SchemaType).

(** [reduce] keeps an element of the list, no later element beats it, and
    every element before it is strictly smaller. *)
Lemma fold_pickMax_split first rest :
  ∃ before after,
    first :: rest = before ++ fold_left pickMax rest first :: after ∧
    (∀ t, t ∈ before →
       (probability t < probability (fold_left pickMax rest first))%Qc) ∧
    (∀ t, t ∈ after →
       (probability t ≤ probability (fold_left pickMax rest first))%Qc).
Proof.
  induction rest as [|y rest IH] using rev_ind.
  - exists [], []. simpl. split; [done|]. split; intros t Ht; inversion Ht.
  - destruct IH as (before & after & Heq & Hlt & Hle).
    rewrite fold_left_app. simpl.
    set (w := fold_left pickMax rest first) in *.
    unfold pickMax. case_bool_decide as Hcmp.
    + exists (first :: rest), []. split; [by rewrite app_comm_cons|].
      split; [|intros t Ht; inversion Ht].
      intros t Ht. rewrite Heq in Ht.
      apply elem_of_app in Ht as [Ht|Ht].
      * eapply Qclt_trans; [by apply Hlt | done].
      * apply elem_of_cons in Ht as [->|Ht]; [done|].
        eapply Qcle_lt_trans; [by apply Hle | done].
    + exists before, (after ++ [y]). split.
      { rewrite app_comm_cons, Heq. by rewrite <- app_assoc. }
      split; [done|].
      intros t Ht. apply elem_of_app in Ht as [Ht|Ht]; [by apply Hle|].
      apply list_elem_of_singleton in Ht as ->. by apply Qcnot_lt_le.
Qed.

(** A split of a filtered list comes from a split of the list itself. *)
Lemma filter_split (P : SchemaType → Prop) `{!∀ t, Decision (P t)} l l1 x l2 :
  filter P l = l1 ++ x :: l2 →
  ∃ k1 k2, l = k1 ++ x :: k2 ∧ filter P k1 = l1 ∧ filter P k2 = l2.
Proof.
  revert l1. induction l as [|a l IH]; intros l1 Hfil.
  - by destruct l1.
  - rewrite filter_cons in Hfil. destruct (decide (P a)) as [Ha|Ha].
    + destruct l1 as [|b l1]; simpl in Hfil; injection Hfil as -> Hfil.
      * exists [], l. by rewrite filter_nil.
      * destruct (IH _ Hfil) as (k1 & k2 & -> & <- & <-).
        exists (b :: k1), k2. by rewrite filter_cons_True.
    + destruct (IH _ Hfil) as (k1 & k2 & -> & <- & <-).
      exists (a :: k1), k2. by rewrite filter_cons_False.
Qed.

(** Nothing survives a filter that every element fails. *)
Lemma filter_none (P : SchemaType → Prop) `{!∀ t, Decision (P t)} l :
  Forall (λ t, ¬ P t) l → filter P l = [].
Proof.
  induction 1 as [|a l Ha _ IH]; [done|]. by rewrite filter_cons_False.
Qed.

End TypeResolver.

(** C1.  [findBestProbabilityType] answers [String] when every observation is
    named [Undefined]; otherwise it answers an observation [w] of the list
    that is not named [Undefined], such that every non-[Undefined] observation
    placed before [w] has a strictly smaller probability and every one placed
    after it has a probability at most that of [w]: the first-encountered
    observation among those of maximal probability. *)
Theorem findBestProbabilityType_contract (ts : list SchemaType) :
  (Forall (λ t, tname t = "Undefined") ts →
     findBestProbabilityType ts = AssumedString ∧
     bestName (findBestProbabilityType ts) = "String") ∧
  (Exists (λ t, tname t ≠ "Undefined") ts →
     ∃ w before after,
       findBestProbabilityType ts = Best w ∧
       ts = before ++ w :: after ∧
       tname w ≠ "Undefined" ∧
       (∀ t, t ∈ before → tname t ≠ "Undefined" →
          (probability t < probability w)%Qc) ∧
       (∀ t, t ∈ after → tname t ≠ "Undefined" →
          (probability t ≤ probability w)%Qc)).
Proof.
  unfold findBestProbabilityType. split.
  - intros Hall.
    assert (filter (λ t, tname t ≠ "Undefined") ts = []) as ->; [|done].
    apply filter_none. induction Hall as [|t l Ht _ IH]; constructor; [|done].
    intros Hne. by apply Hne.
  - intros Hex.
    destruct (filter (λ t, tname t ≠ "Undefined") ts) as [|first rest] eqn:Hf.
    { apply Exists_exists in Hex. destruct Hex as (t & Hin & Hne).
      pose proof (filter_nil_not_elem_of (λ t, tname t ≠ "Undefined") ts t Hf Hne)
        as Hnot.
      exfalso. by apply Hnot, list_elem_of_In. }
    destruct (fold_pickMax_split first rest) as (l1 & l2 & Heq & Hlt & Hle).
    set (w := fold_left pickMax rest first) in *.
    rewrite Heq in Hf.
    destruct (filter_split _ _ _ _ _ Hf) as (k1 & k2 & -> & Hk1 & Hk2).
    exists w, k1, k2. split; [done|]. split; [done|].
    assert (w ∈ filter (λ t, tname t ≠ "Undefined") (k1 ++ w :: k2)) as Hw.
    { rewrite Hf. set_solver. }
    apply list_elem_of_filter in Hw as [Hw _]. split; [done|].
    split; intros t Ht Hne.
    + apply Hlt. rewrite <- Hk1. by apply list_elem_of_filter.
    + apply Hle. rewrite <- Hk2. by apply list_elem_of_filter.
Qed.

(** ** Mapping Compiler *)

Section MappingCompiler.

Implicit Types (f g : ResolvedField) (m : gmap string IndexProperty).
Implicit Types (l : list ResolvedField) (k : string).

(** The chain of conditionals is the table, and the assignment is an
    insertion under every name but [__proto__]. *)
Lemma assignProperty_table m f :
  assignProperty m f =
    match tableEntry (rf_type f) with
    | Some p => setProperty (rf_name f) p m
    | None => m
    end.
Proof.
  unfold assignProperty, tableEntry. simpl.
  repeat (destruct (String.eqb (rf_type f) _); [reflexivity|]).
  reflexivity.
Qed.

Lemma assignProperty_emit m f :
  rf_name f ≠ "__proto__" → assignProperty m f = emitEntry m f.
Proof.
  intros Hne. rewrite assignProperty_table. unfold emitEntry, setProperty.
  by destruct (String.eqb_spec (rf_name f) "__proto__").
Qed.

Lemma assignProperty_proto m f :
  rf_name f = "__proto__" → assignProperty m f = m.
Proof.
  intros Heq. rewrite assignProperty_table. unfold setProperty.
  rewrite Heq. simpl. by destruct (tableEntry (rf_type f)).
Qed.

Lemma tableEntry_None type :
  tableEntry type = None ↔
  type ∉ ["String"; "Number"; "Boolean"; "Date"; "GeoPoint"].
Proof.
  unfold tableEntry. simpl. rewrite !not_elem_of_cons.
  destruct (String.eqb_spec type "String") as [->|?]; [by split; [|intuition]|].
  destruct (String.eqb_spec type "Number") as [->|?]; [by split; [|intuition]|].
  destruct (String.eqb_spec type "Boolean") as [->|?]; [by split; [|intuition]|].
  destruct (String.eqb_spec type "Date") as [->|?]; [by split; [|intuition]|].
  destruct (String.eqb_spec type "GeoPoint") as [->|?]; [by split; [|intuition]|].
  split; [|done]. intros _. repeat split; try done. apply not_elem_of_nil.
Qed.

(** The loop leaves the key [__proto__] as it found it. *)
Lemma fold_assign_proto l m :
  fold_left assignProperty l m !! "__proto__" = m !! "__proto__".
Proof.
  induction l as [|f l IH] using rev_ind; [done|].
  rewrite fold_left_app. simpl.
  destruct (decide (rf_name f = "__proto__")) as [Heq|Hne].
  - by rewrite assignProperty_proto.
  - rewrite assignProperty_emit by done. unfold emitEntry.
    destruct (tableEntry (rf_type f)); [|done].
    by rewrite lookup_insert_ne.
Qed.

(** An entry of the table built by the loop was there before or was
    assigned for one of the fields. *)
Lemma fold_assign_Some l m k p :
  fold_left assignProperty l m !! k = Some p →
  m !! k = Some p ∨
  ∃ f, f ∈ l ∧ rf_name f = k ∧ k ≠ "__proto__" ∧
       tableEntry (rf_type f) = Some p.
Proof.
  induction l as [|f l IH] using rev_ind; [by left|].
  rewrite fold_left_app. simpl.
  assert (fold_left assignProperty l m !! k = Some p →
          m !! k = Some p ∨
          ∃ g, g ∈ l ++ [f] ∧ rf_name g = k ∧ k ≠ "__proto__" ∧
               tableEntry (rf_type g) = Some p) as Hl.
  { intros H. destruct (IH H) as [?|(g & ? & ? & ? & ?)]; [by left|].
    right. exists g. set_solver. }
  destruct (decide (rf_name f = "__proto__")) as [Heq|Hne].
  { by rewrite assignProperty_proto. }
  rewrite assignProperty_emit by done.
  unfold emitEntry. destruct (tableEntry (rf_type f)) as [q|] eqn:Hq; [|done].
  destruct (decide (rf_name f = k)) as [<-|Hk].
  - rewrite lookup_insert_eq. intros [= ->]. right. exists f. set_solver.
  - by rewrite lookup_insert_ne.
Qed.

(** When the fields named [k] agree on their table entry, that entry is
    what the loop leaves under [k], for every [k] but [__proto__]. *)
Lemma fold_assign_agree l m k e :
  k ≠ "__proto__" →
  (∀ g, g ∈ l → rf_name g = k → tableEntry (rf_type g) = e) →
  fold_left assignProperty l m !! k =
    if bool_decide (k ∈ map rf_name l)
    then match e with Some p => Some p | None => m !! k end
    else m !! k.
Proof.
  intros Hproto.
  induction l as [|f l IH] using rev_ind; intros Hagree; [done|].
  rewrite fold_left_app. simpl.
  assert (∀ g, g ∈ l → rf_name g = k → tableEntry (rf_type g) = e) as Hl.
  { intros g Hg. apply Hagree, elem_of_app. by left. }
  specialize (IH Hl). rewrite map_app. simpl.
  destruct (decide (rf_name f = k)) as [Hk|Hk].
  - rewrite assignProperty_emit by congruence. unfold emitEntry.
    rewrite (Hagree f), bool_decide_eq_true_2; try done.
    + destruct e as [p|]; [subst k; by rewrite lookup_insert_eq|].
      rewrite IH. by case_bool_decide.
    + apply elem_of_app. right. by apply list_elem_of_singleton.
    + apply elem_of_app. right. by apply list_elem_of_singleton.
  - assert (bool_decide (k ∈ map rf_name l ++ [rf_name f]) =
            bool_decide (k ∈ map rf_name l)) as ->.
    { apply bool_decide_ext. rewrite elem_of_app, list_elem_of_singleton.
      intuition congruence. }
    rewrite <- IH. rewrite assignProperty_table. unfold setProperty.
    destruct (tableEntry (rf_type f)); [|done].
    destruct (String.eqb (rf_name f) "__proto__"); [done|].
    by rewrite lookup_insert_ne.
Qed.

(** The loop is the emission of the table entries of the fields that are
    not named [__proto__]. *)
Lemma fold_assign_emit l m :
  fold_left assignProperty l m =
  fold_left emitEntry (filter (λ f, rf_name f ≠ "__proto__") l) m.
Proof.
  revert m. induction l as [|f l IH]; intros m; [done|].
  simpl. destruct (decide (rf_name f = "__proto__")) as [Heq|Hne].
  - rewrite filter_cons_False by (by intros ?).
    by rewrite assignProperty_proto, IH.
  - rewrite filter_cons_True by done. simpl.
    by rewrite assignProperty_emit, IH.
Qed.

Lemma mappedFields_reserved (fs : list (option ResolvedField)) :
  mappedFields fs = filter (λ f, rf_name f ∉ reservedNames) (omap id fs).
Proof.
  unfold mappedFields. apply list_filter_iff. intros f.
  unfold exclude, reservedNames. rewrite !not_elem_of_cons. tauto.
Qed.

Lemma elem_of_mappedFields f (fs : list (option ResolvedField)) :
  f ∈ mappedFields fs ↔ Some f ∈ fs ∧ rf_name f ∉ exclude.
Proof.
  unfold mappedFields. rewrite list_elem_of_filter, list_elem_of_omap.
  split.
  - intros [Hex (o & Ho & Hid)]. simpl in Hid. by subst o.
  - intros [Hin Hex]. split; [done|]. by exists (Some f).
Qed.

(** The property table of [getMapping], whatever the names of the fields. *)
Lemma getMapping_lookup `{Runtime} (cs : CollectionSchema)
    (singularize : bool) f :
  Some f ∈ cs_fields cs →
  rf_name f ∉ reservedNames →
  rf_name f ≠ "__proto__" →
  (∀ g, Some g ∈ cs_fields cs → rf_name g = rf_name f →
        rf_type g = rf_type f) →
  properties (_doc (body (getMapping cs singularize))) !! rf_name f =
    tableEntry (rf_type f).
Proof.
  intros Hin Hf Hproto Hagree. simpl.
  assert (rf_name f ∉ exclude) as Hex.
  { revert Hf. unfold reservedNames, exclude. set_solver. }
  rewrite (fold_assign_agree _ _ _ (tableEntry (rf_type f))); [|done|].
  - rewrite bool_decide_eq_true_2.
    + by destruct (tableEntry (rf_type f)).
    + apply list_elem_of_fmap. exists f. split; [done|].
      by apply elem_of_mappedFields.
  - intros g Hg Hname. apply elem_of_mappedFields in Hg as [Hg _].
    by rewrite (Hagree g Hg Hname).
Qed.

End MappingCompiler.

(** C2.  On the schema whose one field is named [__proto__] and has the type
    [String], a name that is none of [_id], [__v] and [id] and a type that
    the table maps to text with a keyword sub-field, [getMapping] returns a
    property table without any entry: the assignment
    [mapping["__proto__"] = ...] gives [mapping] no property of its own. *)
Theorem getMapping_skips_proto_field `{Runtime} (singularize : bool) :
  let field := {| rf_name := "__proto__"; rf_type := "String";
                  isArray := None |} in
  let cs := {| cs_name := "users"; cs_fields := [Some field] |} in
  (rf_name field ∉ reservedNames) ∧
  tableEntry (rf_type field) =
    Some {| p_type := "text";
            p_fields := Some {| keyword := {| kw_type := "keyword";
                                              ignore_above := 256 |} |} |} ∧
  properties (_doc (body (getMapping cs singularize))) = ∅ ∧
  properties (_doc (body (getMapping cs singularize))) !! rf_name field = None.
Proof.
  simpl. repeat split.
  by apply (bool_decide_unpack _).
Qed.

(** ** Schema Compiler *)

Section SchemaCompiler.

Implicit Types (s : SchemaField) (fs : list SchemaField).

(** The test of the inner conditional holds exactly for the two names
    [lat] and [lon], in either order. *)
Lemma isLatLon_spec fs :
  isLatLon fs = true ↔ map fname fs ≡ₚ ["lat"; "lon"].
Proof.
  unfold isLatLon. split.
  - intros H. apply andb_prop in H as [H Hlen].
    apply andb_prop in H as [Hlat Hlon].
    apply Nat.eqb_eq in Hlen.
    destruct fs as [|a [|b [|c fs]]]; try discriminate Hlen.
    apply bool_decide_eq_true_1 in Hlat, Hlon. simpl in *.
    destruct (String.eqb_spec (fname a) "lat") as [Ha|Ha],
             (String.eqb_spec (fname b) "lat") as [Hb|Hb],
             (String.eqb_spec (fname a) "lon") as [Ha'|Ha'],
             (String.eqb_spec (fname b) "lon") as [Hb'|Hb'];
      try (by destruct Hlat); try (by destruct Hlon); try congruence.
    + rewrite Ha, Hb'. done.
    + rewrite Ha', Hb. apply perm_swap.
  - intros Hperm. symmetry in Hperm.
    apply Permutation_length_2_inv in Hperm.
    destruct fs as [|a [|b [|c fs]]]; simpl in Hperm;
      destruct Hperm as [Hperm|Hperm]; try discriminate Hperm;
      injection Hperm as Ha Hb; simpl; rewrite Ha, Hb; done.
Qed.

(** The fields the schema compiler answers [null] for. *)
Lemma resolveField_None s :
  resolveField s = None ↔
  ∃ type, findBestProbabilityType (ftypes s) = Best type ∧
          tname type = "Document" ∧ isLatLon (fields type) = false.
Proof.
  unfold resolveField. split.
  - destruct (findBestProbabilityType (ftypes s)) as [type|]; [|done].
    destruct (String.eqb_spec (tname type) "Array"); [done|].
    destruct (String.eqb_spec (tname type) "Document"); [|done].
    destruct (isLatLon (fields type)) eqn:Hgeo; [done|]. by exists type.
  - intros (type & -> & Hdoc & Hgeo). by rewrite Hdoc, Hgeo.
Qed.

(** A field that is kept keeps its name. *)
Lemma resolveField_name s rf :
  resolveField s = Some rf → rf_name rf = fname s.
Proof.
  unfold resolveField.
  destruct (findBestProbabilityType (ftypes s)) as [type|]; [|by intros [= <-]].
  destruct (String.eqb (tname type) "Array"); [by intros [= <-]|].
  destruct (String.eqb (tname type) "Document"); [|by intros [= <-]].
  destruct (isLatLon (fields type)); [by intros [= <-]|done].
Qed.

End SchemaCompiler.

(** C3.  For a probed field whose best type is a [Document], the entry of
    the compiled schema at the place of that field is a [GeoPoint] field with
    [isArray = false] exactly when the names of the nested fields are [lat]
    and [lon], in either order and with nothing else, and is [null] for every
    other shape.  When the nested names are pairwise distinct, the condition
    is that the set of nested names is the set of [lat] and [lon]. *)
Theorem geo_point_heuristic (collection : Collection) (schema : Schema)
    (i : nat) (s : SchemaField) (type : SchemaType) :
  s_fields schema !! i = Some s →
  findBestProbabilityType (ftypes s) = Best type →
  tname type = "Document" →
  let entry := cs_fields (getCollectionSchema collection schema) !! i in
  let geo := {| rf_name := fname s; rf_type := "GeoPoint";
                isArray := Some false |} in
  (entry = Some (Some geo) ↔ map fname (fields type) ≡ₚ ["lat"; "lon"]) ∧
  (entry = Some None ↔ ¬ map fname (fields type) ≡ₚ ["lat"; "lon"]) ∧
  (NoDup (map fname (fields type)) →
   (entry = Some (Some geo) ↔
    ∀ k, k ∈ map fname (fields type) ↔ k = "lat" ∨ k = "lon")).
Proof.
  intros Hi Hbest Hdoc entry geo.
  assert (entry = Some (if isLatLon (fields type) then Some geo else None))
    as Hres.
  { unfold entry. simpl. rewrite list_lookup_fmap, Hi. simpl.
    unfold resolveField. by rewrite Hbest, Hdoc. }
  assert (entry = Some (Some geo) ↔ map fname (fields type) ≡ₚ ["lat"; "lon"])
    as Hgeo.
  { rewrite Hres, <- isLatLon_spec. by destruct (isLatLon (fields type)). }
  split; [done|]. split.
  - rewrite Hres, <- isLatLon_spec. by destruct (isLatLon (fields type)).
  - intros Hnodup. rewrite Hgeo. split.
    + intros Hperm k. rewrite Hperm. set_solver.
    + intros Hset. apply NoDup_Permutation; [done| |].
      * by apply (bool_decide_unpack _).
      * intros k. rewrite Hset. set_solver.
Qed.

(** C7, as the claim states it, fails: the schema compiler leaves a [null]
    entry in [fields] for an ignored nested document. *)
Lemma getCollectionSchema_keeps_null :
  ¬ (∀ collection schema,
       None ∉ cs_fields (getCollectionSchema collection schema)).
Proof.
  intros H. apply (H {| c_name := "places" |} placesSchema).
  vm_compute. do 2 apply list_elem_of_further. apply list_elem_of_here.
Qed.

(** C7, amended.  The [fields] of the compiled schema has one entry per
    probed field, in the order of the probe: the entry is [null] exactly for
    the ignored nested documents, and otherwise carries the name of the
    probed field.  The [null] entries go away in the mapping compiler, whose
    first filter keeps the other entries in that same order. *)
Theorem getCollectionSchema_fields (collection : Collection) (schema : Schema) :
  let cs := getCollectionSchema collection schema in
  cs_name cs = c_name collection ∧
  length (cs_fields cs) = length (s_fields schema) ∧
  (∀ i s, s_fields schema !! i = Some s →
     cs_fields cs !! i = Some (resolveField s) ∧
     (resolveField s = None ↔ ignoredDocument s) ∧
     (∀ rf, resolveField s = Some rf → rf_name rf = fname s)) ∧
  map rf_name (omap id (cs_fields cs)) =
    map fname (filter (λ s, is_Some (resolveField s)) (s_fields schema)).
Proof.
  simpl. split; [done|]. split; [by rewrite length_map|]. split.
  - intros i s Hi. split; [by rewrite list_lookup_fmap, Hi|]. split.
    + rewrite resolveField_None. unfold ignoredDocument.
      split; intros (type & Hbest & Hdoc & Hgeo); exists type;
        (split; [done|]); (split; [done|]).
      * rewrite <- isLatLon_spec. by rewrite Hgeo.
      * rewrite <- isLatLon_spec in Hgeo. by destruct (isLatLon (fields type)).
    + apply resolveField_name.
  - induction (s_fields schema) as [|s l IH]; [done|].
    simpl. destruct (resolveField s) as [rf|] eqn:Hrf.
    + rewrite filter_cons_True by by rewrite Hrf.
      simpl. f_equal; [|done]. by apply resolveField_name.
    + rewrite filter_cons_False; [done|]. rewrite Hrf. by intros [? ?].
Qed.

(** C6, as the claim states it, fails: no [Unknown] tag exists; the field
    keeps the name of its best type. *)
Lemma unrecognized_type_not_Unknown :
  ¬ (∀ s type,
       findBestProbabilityType (ftypes s) = Best type →
       tname type ∉ recognizedNames →
       ∃ rf, resolveField s = Some rf ∧ rf_type rf = "Unknown").
Proof.
  intros H.
  destruct (H {| fname := "owner"; ftypes := [observation "ObjectID" 1%Qc] |}
              (observation "ObjectID" 1%Qc)) as (rf & Hrf & Htype).
  - reflexivity.
  - by apply (bool_decide_unpack _).
  - vm_compute in Hrf. injection Hrf as <-. discriminate Htype.
Qed.

(** C6, amended.  A field whose best type has a name that no branch tests
    for is kept by the schema compiler with that very name as its type (and
    without [isArray]); the loop of the mapping compiler assigns nothing for
    it, so that the property table has no entry under its name when no other
    probed field bears that name.  Both compilers are total functions:
    nothing is raised. *)
Theorem unrecognized_type_kept_unmapped `{Runtime} (collection : Collection)
    (schema : Schema) (singularize : bool) (s : SchemaField)
    (type : SchemaType) :
  s ∈ s_fields schema →
  findBestProbabilityType (ftypes s) = Best type →
  tname type ∉ recognizedNames →
  let rf := {| rf_name := fname s; rf_type := tname type; isArray := None |} in
  let cs := getCollectionSchema collection schema in
  resolveField s = Some rf ∧
  Some rf ∈ cs_fields cs ∧
  (∀ mapping, assignProperty mapping rf = mapping) ∧
  ((∀ s', s' ∈ s_fields schema → fname s' = fname s → s' = s) →
   properties (_doc (body (getMapping cs singularize))) !! fname s = None).
Proof.
  intros Hin Hbest Hname rf cs.
  assert (resolveField s = Some rf) as Hrf.
  { unfold resolveField. rewrite Hbest.
    destruct (String.eqb_spec (tname type) "Array") as [Heq|_].
    { exfalso. apply Hname. rewrite Heq. by apply (bool_decide_unpack _). }
    destruct (String.eqb_spec (tname type) "Document") as [Heq|_]; [|done].
    exfalso. apply Hname. rewrite Heq. by apply (bool_decide_unpack _). }
  assert (tableEntry (tname type) = None) as Htable.
  { apply tableEntry_None. intros Hfive. apply Hname.
    unfold recognizedNames. set_solver. }
  split; [done|]. split; [|split].
  - simpl. apply list_elem_of_fmap. by exists s.
  - intros mapping. rewrite assignProperty_table. simpl.
    by rewrite Htable.
  - intros Hunique. simpl.
    destruct (fold_left assignProperty _ ∅ !! fname s) as [p|] eqn:Hp; [|done].
    apply fold_assign_Some in Hp as [Hp|(f & Hf & Hfname & _ & Hf')]; [done|].
    apply elem_of_mappedFields in Hf as [Hf _].
    apply list_elem_of_fmap in Hf as (s' & Hs' & Hin'). symmetry in Hs'.
    pose proof (resolveField_name _ _ Hs') as Hn.
    rewrite (Hunique s' Hin') in Hs' by congruence.
    rewrite Hrf in Hs'. injection Hs' as <-. simpl in Hf'. congruence.
Qed.

(** ** Document Normalizer *)

Section NormalizerFacts.

Context `{Runtime}.

Lemma weight_lookup (props : gmap string Value) k v :
  props !! k = Some v → weight v < weight (VObject props).
Proof.
  intros Hk. simpl. rewrite <- (insert_delete_id props k v Hk).
  rewrite map_fold_insert_L.
  - lia.
  - intros. lia.
  - apply lookup_delete_eq.
Qed.

(** Induction on values: an object has the property when the values of its
    properties have it. *)
Lemma Value_object_ind (P : Value → Prop) :
  (∀ v, (∀ props, v ≠ VObject props) →
        (∀ class props, v ≠ VInstance class props) → P v) →
  (∀ props, map_Forall (λ _ v, P v) props → P (VObject props)) →
  (∀ class props, map_Forall (λ _ v, P v) props → P (VInstance class props)) →
  ∀ v, P v.
Proof.
  intros Hleaf Hobj Hinst v.
  remember (weight v) as n eqn:Hn. revert v Hn.
  induction n as [n IH] using lt_wf_ind. intros v ->.
  destruct v as [| | | | | | |props|class props]; try (by apply Hleaf).
  - apply Hobj. intros k v Hk. apply (IH (weight v)); [|done].
    by eapply weight_lookup.
  - apply Hinst. intros k v Hk. apply (IH (weight v)); [|done].
    by apply (weight_lookup props k).
Qed.

(** The loop of [serialize] returns when every conversion does, and then
    with the converted values under the keys of [data] other than
    [__proto__]. *)
Lemma buildResult_Some convert (data out : gmap string Value) :
  buildResult convert data = Some out ↔
  map_Forall (λ _ v, is_Some (convert v)) data ∧
  out = delete "__proto__" (omap convert data).
Proof.
  unfold buildResult. revert out.
  induction data as [|k v data Hk Hfirst IH] using map_first_key_ind;
    intros out.
  - rewrite map_fold_empty, omap_empty, delete_empty.
    split; [intros [= <-]; split; [apply map_Forall_empty|done]|].
    by intros [_ ->].
  - rewrite map_fold_insert_first_key by done.
    rewrite map_Forall_insert by done. rewrite omap_insert.
    destruct (map_fold _ (Some ∅) data) as [result|] eqn:Hfold; simpl.
    + destruct (proj1 (IH result) eq_refl) as [Hall ->].
      destruct (convert v) as [x|] eqn:Hx; simpl.
      * unfold setProperty.
        destruct (String.eqb_spec k "__proto__") as [->|Hne].
        -- rewrite delete_insert_eq. split; [intros [= <-]; by eauto|].
           by intros [_ ->].
        -- rewrite delete_insert_ne by done.
           split; [intros [= <-]; by eauto|]. by intros [_ ->].
      * split; [done|]. by intros [[[? ?] _] _].
    + split; [done|]. intros [[_ Hall] _].
      by specialize (proj2 (IH (delete "__proto__" (omap convert data)))
                       (conj Hall eq_refl)).
Qed.

Lemma buildResult_None convert (data : gmap string Value) k v :
  data !! k = Some v → convert v = None → buildResult convert data = None.
Proof.
  intros Hk Hv. destruct (buildResult convert data) as [out|] eqn:Hout; [|done].
  apply buildResult_Some in Hout as [Hall _].
  destruct (Hall k v Hk) as [x Hx]. congruence.
Qed.

Lemma serializeValue_object props :
  serializeValue (VObject props) = VObject <$> serialize props.
Proof. reflexivity. Qed.

Lemma serializeValue_instance class props :
  serializeValue (VInstance class props) = VObject <$> serialize props.
Proof. reflexivity. Qed.

(** What [serialize] returns, key by key. *)
Lemma serialize_lookup (data out : gmap string Value) key :
  serialize data = Some out →
  out !! key = if String.eqb key "__proto__" then None
               else data !! key ≫= serializeValue.
Proof.
  intros Hout. apply buildResult_Some in Hout as [_ ->].
  destruct (String.eqb_spec key "__proto__") as [->|Hne].
  - apply lookup_delete_eq.
  - by rewrite lookup_delete_ne, lookup_omap.
Qed.

(** [serialize] returns its argument when the argument has no key
    [__proto__] and every value of it is stored as it is. *)
Lemma serialize_fixed (data : gmap string Value) :
  serialize data = Some data ↔
  data !! "__proto__" = None ∧
  map_Forall (λ _ v, serializeValue v = Some v) data.
Proof.
  split.
  - intros Hfix. split.
    + by rewrite (serialize_lookup _ _ "__proto__" Hfix).
    + intros k v Hk. pose proof (serialize_lookup _ _ k Hfix) as Hlook.
      rewrite Hk in Hlook. simpl in Hlook.
      by destruct (String.eqb k "__proto__").
  - intros [Hproto Hall]. apply buildResult_Some. split.
    + intros k v Hk. rewrite (Hall k v Hk). by eexists.
    + apply map_eq. intros k.
      destruct (decide (k = "__proto__")) as [->|Hne].
      * by rewrite lookup_delete_eq.
      * rewrite lookup_delete_ne, lookup_omap by done.
        destruct (data !! k) as [v|] eqn:Hk; [|done]. simpl.
        by rewrite (Hall k v Hk).
Qed.

(** What [serialize] stores is stored as it is by a second pass. *)
Lemma serializeValue_idemp v v' :
  serializeValue v = Some v' → serializeValue v' = Some v'.
Proof.
  revert v'.
  assert (∀ props,
    map_Forall (λ _ v, ∀ v', serializeValue v = Some v' →
                             serializeValue v' = Some v') props →
    ∀ out, serialize props = Some out → serialize out = Some out) as Hobj.
  { intros props IH out Hout. apply serialize_fixed. split.
    - by rewrite (serialize_lookup _ _ "__proto__" Hout).
    - intros k w Hk. pose proof (serialize_lookup _ _ k Hout) as Hlook.
      rewrite Hk in Hlook. destruct (String.eqb k "__proto__"); [done|].
      destruct (props !! k) as [u|] eqn:Hu; [|done]. simpl in Hlook.
      by apply (IH k u Hu). }
  induction v as [v Hv Hv'|props IH|class props IH] using Value_object_ind;
    intros v'.
  - destruct v; try (by intros [= <-]).
    + simpl. destruct (validTime time); [|done]. by intros [= <-].
    + by destruct (Hv props).
    + by destruct (Hv' class props).
  - rewrite serializeValue_object.
    destruct (serialize props) as [out|] eqn:Hout; [|done].
    intros [= <-]. rewrite serializeValue_object.
    by rewrite (Hobj props IH out Hout).
  - rewrite serializeValue_instance.
    destruct (serialize props) as [out|] eqn:Hout; [|done].
    intros [= <-]. rewrite serializeValue_object.
    by rewrite (Hobj props IH out Hout).
Qed.

End NormalizerFacts.

(** C4.  [serialize] does not return a tree for every tree: on a document
    that holds a date without a time value it throws.  Nor has the tree it
    returns always the keys of its argument, an own key [__proto__] being
    left out, nor is every value that is neither a date, nor an array, nor
    a plain object passed through: an instance of a class comes back as a
    plain object. *)
Theorem serialize_breaks_contract `{Runtime} :
  serialize {[ "signup" := VDate 8640000000000001 ]} = None ∧
  serialize {[ "__proto__" := VString "admin"; "name" := VString "Ann" ]} =
    Some {[ "name" := VString "Ann" ]} ∧
  serialize {[ "owner" := VInstance "ObjectID" {[ "id" := VString "5f" ]} ]} =
    Some {[ "owner" := VObject {[ "id" := VString "5f" ]} ]}.
Proof. repeat split. Qed.

(** C5.  [serialize] applied to its own result gives that result again: the
    two calls in a row end as the first alone does, also when it throws. *)
Theorem serialize_idempotent `{Runtime} (data : gmap string Value) :
  serialize data ≫= serialize = serialize data.
Proof.
  destruct (serialize data) as [out|] eqn:Hout; [|done]. simpl.
  pose proof (serializeValue_idemp (VObject data) (VObject out)) as Hidem.
  rewrite !serializeValue_object, Hout in Hidem.
  specialize (Hidem eq_refl).
  by destruct (serialize out) as [out'|]; simplify_eq/=.
Qed.

(** ** Sync Orchestrator *)

Section OrchestratorFacts.

Context {World : Type} `{Runtime} `{Servers World}.

Implicit Types (cs : CollectionSchema) (st : State World).
Implicit Types (bulk : list BulkItem) (docs : list (gmap string Value)).

(** The loop over the documents appends two items per document, and every
    action descriptor it appends is addressed by the naming rule. *)
Lemma pushDocuments_appends flag cs docs bulk0 bulk :
  pushDocuments flag cs bulk0 docs = Returned bulk →
  ∃ added, bulk = bulk0 ++ added ∧ length added = 2 * length docs ∧
    ∀ action, ActionItem action ∈ added →
      _index action = if flag then singular (cs_name cs) else cs_name cs.
Proof.
  revert bulk0. induction docs as [|document docs IH]; intros bulk0; simpl.
  - intros [= <-]. exists []. rewrite app_nil_r.
    split; [done|]. split; [done|]. intros action Hin. inversion Hin.
  - destruct (idToString (document !! "_id")) as [id|]; [|done].
    destruct (serialize _) as [body|]; [|done].
    intros Hpush. destruct (IH _ Hpush) as (added & -> & Hlen & Hidx).
    eexists. rewrite <- app_assoc. split; [done|]. split.
    + simpl. rewrite Hlen. lia.
    + intros action Hin. simpl in Hin.
      apply elem_of_cons in Hin as [[= ->]|Hin]; [done|].
      apply elem_of_cons in Hin as [Hin|Hin]; [done|]. by apply Hidx.
Qed.

(** The body of the outer loop, step by step. *)
Lemma syncCollection_steps flag cs st :
  syncCollection flag cs st =
    match afterFetch cs st with
    | (Threw e, st1) => (Threw e, st1)
    | (Returned docs, st1) =>
        match pushDocuments flag cs [] docs with
        | Threw e => (Threw e, st1)
        | Returned [] => (Returned (), st1)
        | Returned bulk =>
            let request := {| refresh := true; bulk_body := bulk |} in
            let '(answer, w3) := esBulk request (world st1) in
            let st2 := {| world := w3;
                          trace := trace st1 ++ [Bulk request] |} in
            match answer with
            | Rejects err => (Threw (Rejection err), st2)
            | Resolves res =>
                match error res with
                | Some e =>
                    if truthy e
                    then (Threw (CLIError ("Error syncing " +:+ cs_name cs
                                           +:+ ": " +:+ toStringJS e)), st2)
                    else (Returned (), st2)
                | None => (Returned (), st2)
                end
            end
        end
    end.
Proof.
  unfold syncCollection, afterFetch, mbind, M_bind, emit, call.
  simpl.
  destruct (estimatedDocumentCount (cs_name cs) (world st)) as [[n|err] w1];
    [|done].
  simpl. destruct (find (cs_name cs) w1) as [[docs|err] w2]; [|done]. simpl.
  destruct (pushDocuments flag cs [] docs) as [[|item bulk]|]; try done.
  simpl. destruct (esBulk _ w2) as [[res|err] w3]; [|done]. simpl.
  destruct (error res) as [e|]; [|done]. by destruct (truthy e).
Qed.

(** A non-empty string and any object pass the test [if (res.error)]. *)
Lemma truthy_nonempty (e : Value) :
  (∃ s, e = VString s ∧ s ≠ "") ∨ (∃ props, e = VObject props) →
  truthy e = true.
Proof.
  intros [(s & -> & Hs)|(props & ->)]; [|done].
  simpl. by destruct (String.eqb_spec s "").
Qed.

(** The events a fetch adds to the trace it started from. *)
Lemma afterFetch_events cs st docs st1 :
  afterFetch cs st = (Returned docs, st1) →
  ∃ n, drop (length (trace st)) (trace st1) =
         [ Log (" Syncing " +:+ cs_name cs);
           EstimatedDocumentCount (cs_name cs);
           Log (" Estimated documents count: " +:+ toStringJS (VNumber n));
           Find (cs_name cs) ].
Proof.
  unfold afterFetch, mbind, M_bind, emit, call. simpl.
  destruct (estimatedDocumentCount (cs_name cs) (world st)) as [[n|err] w1];
    [|done].
  simpl. destruct (find (cs_name cs) w1) as [[docs'|err] w2]; [|done].
  intros [= <- <-]. exists n. simpl.
  rewrite <- !app_assoc. by rewrite drop_app_length.
Qed.

(** A fetch sends no bulk request, however it ends. *)
Lemma afterFetch_no_bulk cs st r st1 request :
  afterFetch cs st = (r, st1) →
  Bulk request ∉ drop (length (trace st)) (trace st1).
Proof.
  unfold afterFetch, mbind, M_bind, emit, call. simpl.
  destruct (estimatedDocumentCount (cs_name cs) (world st)) as [[n|err] w1];
    simpl.
  - destruct (find (cs_name cs) w1) as [a w2]. intros [= _ <-]. simpl.
    rewrite <- !app_assoc. rewrite drop_app_length. intros Hin.
    repeat (apply elem_of_cons in Hin as [Hin|Hin]; [discriminate Hin|]).
    inversion Hin.
  - intros [= _ <-]. simpl.
    rewrite <- !app_assoc. rewrite drop_app_length. intros Hin.
    repeat (apply elem_of_cons in Hin as [Hin|Hin]; [discriminate Hin|]).
    inversion Hin.
Qed.

(** C8.  For a collection and a setting of the flag, the index name of the
    compiled mapping is the collection name when the flag is unset and its
    singular form when the flag is set, and every action descriptor of
    every bulk request the loop sends for that collection is addressed to
    that same index name. *)
Theorem index_naming_consistent flag cs st r st' request action :
  syncCollection flag cs st = (r, st') →
  Bulk request ∈ drop (length (trace st)) (trace st') →
  ActionItem action ∈ bulk_body request →
  index (getMapping cs flag) =
    (if flag then singular (cs_name cs) else cs_name cs) ∧
  _index action = index (getMapping cs flag).
Proof.
  intros Hrun Hreq Haction. split; [done|]. simpl.
  rewrite syncCollection_steps in Hrun.
  destruct (afterFetch cs st) as [[docs|e] st1] eqn:Hfetch.
  2: { injection Hrun as _ <-.
       by destruct (afterFetch_no_bulk _ _ _ _ request Hfetch). }
  pose proof (afterFetch_no_bulk _ _ _ _ request Hfetch) as Hno.
  destruct (afterFetch_events _ _ _ _ Hfetch) as [n Hev].
  destruct (pushDocuments flag cs [] docs) as [bulk|] eqn:Hpush.
  2: { injection Hrun as _ <-. by destruct Hno. }
  destruct (pushDocuments_appends _ _ _ _ _ Hpush) as (added & -> & _ & Hidx).
  simpl in *. destruct added as [|item added].
  { injection Hrun as _ <-. by destruct Hno. }
  destruct (esBulk _ (world st1)) as [answer w3].
  assert (trace st' =
          trace st1 ++ [Bulk {| refresh := true;
                                bulk_body := item :: added |}]) as Htr.
  { destruct answer as [res|err]; [|by injection Hrun as _ <-].
    destruct (error res) as [e|]; [destruct (truthy e)|];
      by injection Hrun as _ <-. }
  assert (length (trace st) ≤ length (trace st1))%nat as Hlen.
  { apply (f_equal length) in Hev. rewrite length_drop in Hev. simpl in Hev.
    lia. }
  rewrite Htr, drop_app_le in Hreq by done.
  apply elem_of_app in Hreq as [Hreq|Hreq]; [by destruct Hno|].
  apply list_elem_of_singleton in Hreq. injection Hreq as ->.
  by apply Hidx.
Qed.

(** C9.  When the answer to the bulk request of a collection carries a
    truthy [error], the loop stops there with the error
    [Error syncing <collection>: <error>], and the trace ends with that
    request: no later collection is touched.  When the answer has no
    [error], the loop goes on with the next collection. *)
Theorem bulk_error_halts flag cs more st docs st1 bulk res w3 :
  afterFetch cs st = (Returned docs, st1) →
  pushDocuments flag cs [] docs = Returned bulk →
  bulk ≠ [] →
  esBulk {| refresh := true; bulk_body := bulk |} (world st1)
    = (Resolves res, w3) →
  let st2 := {| world := w3;
                trace := trace st1 ++
                  [Bulk {| refresh := true; bulk_body := bulk |}] |} in
  (∀ e, error res = Some e → truthy e = true →
     syncCollections flag (cs :: more) st =
       (Threw (CLIError ("Error syncing " +:+ cs_name cs +:+ ": " +:+
                         toStringJS e)), st2)) ∧
  (error res = None →
     syncCollections flag (cs :: more) st = syncCollections flag more st2).
Proof.
  intros Hfetch Hpush Hne Hres st2.
  assert (∀ out,
    syncCollection flag cs st = (out, st2) →
    syncCollections flag (cs :: more) st =
      match out with
      | Returned _ => syncCollections flag more st2
      | Threw e => (Threw e, st2)
      end) as Hloop.
  { intros out Hout. simpl. unfold mbind, M_bind at 1. rewrite Hout.
    by destruct out. }
  pose proof (syncCollection_steps flag cs st) as Hsteps.
  rewrite Hfetch, Hpush in Hsteps. destruct bulk as [|item bulk]; [done|].
  simpl in Hsteps. rewrite Hres in Hsteps. split.
  - intros e He Htruthy. rewrite He, Htruthy in Hsteps.
    by rewrite (Hloop _ Hsteps).
  - intros He. rewrite He in Hsteps. by rewrite (Hloop _ Hsteps).
Qed.

(** C10.  When the fetch of a collection answers no document, the body of
    the loop returns without a bulk request, in the state the fetch left,
    and the loop goes on with the next collection; and whenever the body
    sends a bulk request, the fetch had answered at least one document. *)
Theorem empty_collection_sends_no_bulk flag cs more st docs st1 :
  afterFetch cs st = (Returned docs, st1) →
  (docs = [] →
     syncCollection flag cs st = (Returned (), st1) ∧
     (∀ request, Bulk request ∉ drop (length (trace st)) (trace st1)) ∧
     syncCollections flag (cs :: more) st = syncCollections flag more st1) ∧
  (∀ r st' request,
     syncCollection flag cs st = (r, st') →
     Bulk request ∈ drop (length (trace st)) (trace st') →
     docs ≠ []).
Proof.
  intros Hfetch.
  assert (docs = [] → syncCollection flag cs st = (Returned (), st1)) as Hempty.
  { intros ->. by rewrite syncCollection_steps, Hfetch. }
  assert (∀ request, Bulk request ∉ drop (length (trace st)) (trace st1))
    as Hno.
  { intros request. by eapply afterFetch_no_bulk. }
  split.
  - intros Hdocs. split; [by apply Hempty|]. split; [done|].
    simpl. unfold mbind, M_bind at 1. by rewrite (Hempty Hdocs).
  - intros r st' request Hrun Hin ->.
    rewrite (Hempty eq_refl) in Hrun. injection Hrun as _ <-.
    by apply (Hno request).
Qed.

End OrchestratorFacts.

(** ** The program on the sample inputs *)

(** Two observations of equal probability: the first one is kept. *)
Example findBestProbabilityType_tie :
  bestName (findBestProbabilityType
              [observation "Number" (Q2Qc (1 # 2));
               observation "String" (Q2Qc (1 # 2))]) = "Number".
Proof. reflexivity. Qed.

Example getCollectionSchema_places :
  cs_fields (getCollectionSchema {| c_name := "places" |} placesSchema) =
  [ Some {| rf_name := "_id"; rf_type := "ObjectID"; isArray := None |};
    Some {| rf_name := "label"; rf_type := "String"; isArray := None |};
    None;
    Some {| rf_name := "where"; rf_type := "GeoPoint"; isArray := Some false |};
    Some {| rf_name := "owner"; rf_type := "ObjectID"; isArray := None |} ].
Proof. reflexivity. Qed.

Example getMapping_places :
  @getMapping runtimeStub
    (getCollectionSchema {| c_name := "places" |} placesSchema) false =
  {| index := "places"; m_type := "_doc"; include_type_name := true;
     body := {| _doc := {| properties :=
       {[ "label" := {| p_type := "text";
                        p_fields := Some {| keyword :=
                          {| kw_type := "keyword"; ignore_above := 256 |} |} |};
          "where" := {| p_type := "geo_point"; p_fields := None |} ]} |} |} |}.
Proof. vm_compute. reflexivity. Qed.

(** Two fields of one name: the later assignment is the one that stays. *)
Example getMapping_same_name :
  properties (_doc (body (@getMapping runtimeStub
    {| cs_name := "notes";
       cs_fields :=
         [ Some {| rf_name := "text"; rf_type := "String"; isArray := None |};
           Some {| rf_name := "text"; rf_type := "Number"; isArray := None |} ]
    |} false))) =
  {[ "text" := {| p_type := "double"; p_fields := None |} ]}.
Proof. vm_compute. reflexivity. Qed.

Example serialize_ann :
  @serialize runtimeStub (delete "__v" (delete "_id" ann)) = Some annBody.
Proof. vm_compute. reflexivity. Qed.

Example pushDocuments_users :
  @pushDocuments runtimeStub true usersSchema [] usersData =
  Returned (bulk_body usersRequest).
Proof. reflexivity. Qed.

(** A document without [_id]: [_id.toString()] throws. *)
Example pushDocuments_without_id :
  @pushDocuments runtimeStub false usersSchema []
    [ {[ "name" := VString "Bob" ]} ] = Threw TypeError.
Proof. reflexivity. Qed.

(** A document with a date that has no time value: [toISOString] throws. *)
Example pushDocuments_invalid_date :
  @pushDocuments runtimeStub false usersSchema []
    [ {[ "_id" := VString "2"; "signup" := VDate 8640000000000001 ]} ]
  = Threw RangeError.
Proof. reflexivity. Qed.

Example syncCollections_rejected :
  (@syncCollections unit runtimeStub (serversStub rejected) false
     [emptySchema; usersSchema; emptySchema] start).1 =
  Threw (CLIError "Error syncing users: cluster_block_exception").
Proof. reflexivity. Qed.

(** ** The theorems on the sample inputs *)

(** C1 on two lists: only [Undefined], and a tie between [String] and
    [Number] behind an [Undefined] of larger probability. *)
Lemma findBestProbabilityType_contract_witness :
  (findBestProbabilityType [observation "Undefined" 1%Qc] = AssumedString ∧
   bestName (findBestProbabilityType [observation "Undefined" 1%Qc])
     = "String") ∧
  ∃ w before after,
    findBestProbabilityType
      [observation "Undefined" (Q2Qc (1 # 2));
       observation "String" (Q2Qc (1 # 4));
       observation "Number" (Q2Qc (1 # 4))] = Best w ∧
    [observation "Undefined" (Q2Qc (1 # 2));
     observation "String" (Q2Qc (1 # 4));
     observation "Number" (Q2Qc (1 # 4))] = before ++ w :: after ∧
    tname w ≠ "Undefined" ∧
    (∀ t, t ∈ before → tname t ≠ "Undefined" →
       (probability t < probability w)%Qc) ∧
    (∀ t, t ∈ after → tname t ≠ "Undefined" →
       (probability t ≤ probability w)%Qc).
Proof.
  split.
  - apply (proj1 (findBestProbabilityType_contract _)).
    constructor; [reflexivity|constructor].
  - apply (proj2 (findBestProbabilityType_contract _)).
    apply Exists_cons_tl, Exists_cons_hd. simpl. discriminate.
Defined.

(** C3 on the field [where] of [places], whose nested fields are [lon] and
    [lat]. *)
Lemma geo_point_heuristic_witness :
  let s := {| fname := "where"; ftypes := [lonLat] |} in
  let entry :=
    cs_fields (getCollectionSchema {| c_name := "places" |} placesSchema)
      !! 3%nat in
  let geo := {| rf_name := "where"; rf_type := "GeoPoint";
                isArray := Some false |} in
  s_fields placesSchema !! 3%nat = Some s ∧
  findBestProbabilityType (ftypes s) = Best lonLat ∧
  tname lonLat = "Document" ∧
  (entry = Some (Some geo) ↔ map fname (fields lonLat) ≡ₚ ["lat"; "lon"]) ∧
  (entry = Some None ↔ ¬ map fname (fields lonLat) ≡ₚ ["lat"; "lon"]) ∧
  (NoDup (map fname (fields lonLat)) →
   (entry = Some (Some geo) ↔
    ∀ k, k ∈ map fname (fields lonLat) ↔ k = "lat" ∨ k = "lon")).
Proof.
  intros s entry geo.
  split; [reflexivity|]. split; [reflexivity|]. split; [reflexivity|].
  apply (geo_point_heuristic {| c_name := "places" |} placesSchema 3 s lonLat);
    reflexivity.
Defined.

(** C7 on [places]: the third entry, for the field [position] with the nested
    fields [lat], [lon] and [alt], is [null]. *)
Lemma getCollectionSchema_fields_witness :
  let cs := getCollectionSchema {| c_name := "places" |} placesSchema in
  let s := {| fname := "position"; ftypes := [latLonAlt] |} in
  s_fields placesSchema !! 2%nat = Some s ∧
  cs_fields cs !! 2%nat = Some None ∧
  ignoredDocument s ∧
  map rf_name (omap id (cs_fields cs)) = ["_id"; "label"; "where"; "owner"].
Proof.
  intros cs s.
  destruct (getCollectionSchema_fields {| c_name := "places" |} placesSchema)
    as (_ & _ & Hentry & Hnames).
  destruct (Hentry 2%nat s eq_refl) as (Hnth & Hnull & _).
  split; [reflexivity|]. split; [exact Hnth|].
  split; [by apply Hnull|].
  etrans; [exact Hnames|reflexivity].
Defined.

(** C6 on the field [owner] of [places], whose only type is [ObjectID]. *)
Lemma unrecognized_type_kept_unmapped_witness :
  let s := {| fname := "owner"; ftypes := [observation "ObjectID" 1%Qc] |} in
  let rf := {| rf_name := "owner"; rf_type := "ObjectID"; isArray := None |} in
  let cs := getCollectionSchema {| c_name := "places" |} placesSchema in
  s ∈ s_fields placesSchema ∧
  (tname (observation "ObjectID" 1%Qc) ∉ recognizedNames) ∧
  resolveField s = Some rf ∧
  Some rf ∈ cs_fields cs ∧
  (∀ mapping, assignProperty mapping rf = mapping) ∧
  properties (_doc (body (@getMapping runtimeStub cs false))) !! "owner" = None.
Proof.
  intros s rf cs.
  assert (s ∈ s_fields placesSchema) as Hin.
  { do 4 apply list_elem_of_further. apply list_elem_of_here. }
  assert (tname (observation "ObjectID" 1%Qc) ∉ recognizedNames) as Hname.
  { by apply (bool_decide_unpack _). }
  destruct (@unrecognized_type_kept_unmapped runtimeStub
              {| c_name := "places" |} placesSchema false s
              (observation "ObjectID" 1%Qc) Hin eq_refl Hname)
    as (Hrf & Hkept & Hstep & Htable).
  split; [done|]. split; [done|]. split; [exact Hrf|]. split; [exact Hkept|].
  split; [exact Hstep|]. apply Htable.
  intros s' Hs' Hsame. unfold placesSchema in Hs'. simpl in Hs'.
  repeat (apply elem_of_cons in Hs' as [->|Hs']; [try discriminate Hsame|]);
    try reflexivity.
  inversion Hs'.
Defined.

(** C8 on [users] with the flag set: the mapping and the action descriptor
    both name the index [user]. *)
Lemma index_naming_consistent_witness :
  let run := @syncCollection unit runtimeStub (serversStub accepted) true
               usersSchema start in
  let action := {| _index := "user"; _type := "_doc"; _id := "1" |} in
  Bulk usersRequest ∈ drop (length (trace start)) (trace run.2) ∧
  ActionItem action ∈ bulk_body usersRequest ∧
  index (@getMapping runtimeStub usersSchema true) = "user" ∧
  _index action = index (@getMapping runtimeStub usersSchema true).
Proof.
  intros run action.
  assert (Bulk usersRequest ∈ drop (length (trace start)) (trace run.2))
    as Hsent.
  { vm_compute. do 4 apply list_elem_of_further. apply list_elem_of_here. }
  assert (ActionItem action ∈ bulk_body usersRequest) as Haction.
  { apply list_elem_of_here. }
  split; [exact Hsent|]. split; [exact Haction|].
  exact (@index_naming_consistent unit runtimeStub (serversStub accepted) true
           usersSchema start run.1 run.2 usersRequest action
           (surjective_pairing run) Hsent Haction).
Defined.

(** C9 on the run over [users] and [places]: a rejected bulk request stops
    the run at [users]; an accepted one lets it go on to [places]. *)
Lemma bulk_error_halts_witness :
  let st1 := (@afterFetch unit runtimeStub (serversStub rejected)
                usersSchema start).2 in
  let st2 := {| world := (); trace := trace st1 ++ [Bulk usersRequest] |} in
  @syncCollections unit runtimeStub (serversStub rejected) true
    [usersSchema; emptySchema] start
    = (Threw (CLIError "Error syncing users: cluster_block_exception"), st2) ∧
  @syncCollections unit runtimeStub (serversStub accepted) true
    [usersSchema; emptySchema] start
    = @syncCollections unit runtimeStub (serversStub accepted) true
        [emptySchema] st2.
Proof.
  intros st1 st2. split.
  - refine (proj1 (@bulk_error_halts unit runtimeStub (serversStub rejected)
                     true usersSchema [emptySchema] start usersData st1
                     (bulk_body usersRequest) rejected ()
                     eq_refl eq_refl _ eq_refl)
                  (VString "cluster_block_exception") eq_refl eq_refl).
    discriminate.
  - refine (proj2 (@bulk_error_halts unit runtimeStub (serversStub accepted)
                     true usersSchema [emptySchema] start usersData st1
                     (bulk_body usersRequest) accepted ()
                     eq_refl eq_refl _ eq_refl)
                  eq_refl).
    discriminate.
Defined.

(** C10 on [places], where the fetch answers no document. *)
Lemma empty_collection_sends_no_bulk_witness :
  let st1 := (@afterFetch unit runtimeStub (serversStub rejected)
                emptySchema start).2 in
  @syncCollection unit runtimeStub (serversStub rejected) false emptySchema
    start = (Returned (), st1) ∧
  (∀ request, Bulk request ∉ drop (length (trace start)) (trace st1)) ∧
  @syncCollections unit runtimeStub (serversStub rejected) false
    [emptySchema; usersSchema] start
    = @syncCollections unit runtimeStub (serversStub rejected) false
        [usersSchema] st1.
Proof.
  intros st1.
  exact (proj1 (@empty_collection_sends_no_bulk unit runtimeStub
                  (serversStub rejected) false emptySchema [usersSchema]
                  start [] st1 eq_refl) eq_refl).
Defined.

(** * Properties beyond the contracts *)

(** ** Type resolution and mapping, end to end *)

Section Pipeline.

Context `{Runtime}.

Implicit Types (s : SchemaField) (schema : Schema) (collection : Collection).

(** Under a name that one probed field only bears, and that is neither
    reserved nor [__proto__], the property table of the compiled schema has
    what the table has for the resolved type of that field, and nothing
    when the field was ignored. *)
Lemma pipeline_lookup collection schema singularize s :
  s ∈ s_fields schema →
  (∀ s', s' ∈ s_fields schema → fname s' = fname s → s' = s) →
  fname s ∉ reservedNames →
  fname s ≠ "__proto__" →
  properties (_doc (body (getMapping (getCollectionSchema collection schema)
                            singularize))) !! fname s
    = rf ← resolveField s; tableEntry (rf_type rf).
Proof.
  intros Hin Hunique Hres Hproto. simpl.
  rewrite (fold_assign_agree _ _ _
             (rf ← resolveField s; tableEntry (rf_type rf))); [|done|].
  - case_bool_decide as Hk.
    + by destruct (rf ← resolveField s; tableEntry (rf_type rf)).
    + destruct (resolveField s) as [rf|] eqn:Hrf; [|done]. simpl.
      exfalso. apply Hk. apply list_elem_of_fmap. exists rf. split.
      { symmetry. by apply resolveField_name. }
      apply elem_of_mappedFields. split.
      * apply list_elem_of_fmap. by exists s.
      * rewrite (resolveField_name _ _ Hrf). unfold exclude.
        unfold reservedNames in Hres. set_solver.
  - intros g Hg Hname. apply elem_of_mappedFields in Hg as [Hg _].
    apply list_elem_of_fmap in Hg as (s' & Hs' & Hin'). symmetry in Hs'.
    pose proof (resolveField_name _ _ Hs') as Hn.
    rewrite (Hunique s' Hin') in Hs' by congruence. by rewrite Hs'.
Qed.

End Pipeline.

(** X1.  An observation that is not [Undefined] and whose probability is
    strictly above that of every other observation that is not [Undefined]
    is the answer, wherever it stands in the list. *)
Theorem findBestProbabilityType_strict_max (l1 l2 : list SchemaType)
    (w : SchemaType) :
  tname w ≠ "Undefined" →
  (∀ t, t ∈ l1 ++ l2 → tname t ≠ "Undefined" →
        (probability t < probability w)%Qc) →
  findBestProbabilityType (l1 ++ w :: l2) = Best w.
Proof.
  intros Hw Hmax. unfold findBestProbabilityType.
  rewrite list.filter_app, filter_cons_True by done.
  destruct (filter _ l1 ++ w :: filter _ l2) as [|first rest] eqn:Hf.
  { by destruct (filter (λ t, tname t ≠ "Undefined") l1). }
  destruct (fold_pickMax_split first rest) as (b & a & Heq & Hlt & Hle).
  set (w' := fold_left pickMax rest first) in *.
  f_equal.
  assert (w' ∈ filter (λ t, tname t ≠ "Undefined") l1 ++
               w :: filter (λ t, tname t ≠ "Undefined") l2) as Hw'.
  { rewrite Hf, Heq. set_solver. }
  assert (w ∈ b ++ w' :: a) as Hwin.
  { rewrite <- Heq, <- Hf. set_solver. }
  assert ((probability w' < probability w)%Qc → False) as Hcontra.
  { intros Hsmall. apply elem_of_app in Hwin as [Hin|Hin].
    - apply Hlt in Hin. by apply (Qclt_not_le _ _ Hsmall), Qclt_le_weak.
    - apply elem_of_cons in Hin as [Hin|Hin].
      + apply (Qclt_not_eq _ _ Hsmall). by rewrite Hin.
      + apply Hle in Hin. by apply (Qclt_not_le _ _ Hsmall). }
  apply elem_of_app in Hw' as [Hin|Hin].
  - apply list_elem_of_filter in Hin as [? ?]. destruct Hcontra.
    apply Hmax; [set_solver|done].
  - apply elem_of_cons in Hin as [?|Hin]; [done|].
    apply list_elem_of_filter in Hin as [? ?]. destruct Hcontra.
    apply Hmax; [set_solver|done].
Qed.

(** X2.  A probed field whose best type is an [Array] is kept with
    [isArray = true] and, as its type, the name of the best type of the
    elements.  When no other probed field bears its name, and that name is
    neither a reserved one nor [__proto__], the property table has under it
    the table entry of that element type; an array of documents or of
    arrays then has no entry, whatever the shape of the documents. *)
Theorem array_field_mapped_as_element `{Runtime} (collection : Collection)
    (schema : Schema) (singularize : bool) (s : SchemaField)
    (type : SchemaType) :
  s ∈ s_fields schema →
  findBestProbabilityType (ftypes s) = Best type →
  tname type = "Array" →
  let element := bestName (findBestProbabilityType (types type)) in
  let cs := getCollectionSchema collection schema in
  let props := properties (_doc (body (getMapping cs singularize))) in
  Some {| rf_name := fname s; rf_type := element; isArray := Some true |}
    ∈ cs_fields cs ∧
  ((∀ s', s' ∈ s_fields schema → fname s' = fname s → s' = s) →
   fname s ∉ reservedNames →
   fname s ≠ "__proto__" →
   props !! fname s = tableEntry element ∧
   (element = "Document" ∨ element = "Array" → props !! fname s = None)).
Proof.
  intros Hin Hbest Harray element cs props.
  assert (resolveField s =
          Some {| rf_name := fname s; rf_type := element; isArray := Some true |})
    as Hrf.
  { unfold resolveField. by rewrite Hbest, Harray. }
  split.
  - simpl. apply list_elem_of_fmap. by exists s.
  - intros Hunique Hres Hproto.
    assert (props !! fname s = tableEntry element) as Hprops.
    { unfold props, cs. rewrite pipeline_lookup by done. by rewrite Hrf. }
    split; [done|]. rewrite Hprops. by intros [->| ->].
Qed.

(** X3.  A probed field with observations named [Undefined] only, or with no
    observation at all, is mapped as text with a keyword sub-field, when no
    other probed field bears its name, which is neither a reserved one nor
    [__proto__]. *)
Theorem undefined_field_mapped_as_text `{Runtime} (collection : Collection)
    (schema : Schema) (singularize : bool) (s : SchemaField) :
  s ∈ s_fields schema →
  (∀ s', s' ∈ s_fields schema → fname s' = fname s → s' = s) →
  fname s ∉ reservedNames →
  fname s ≠ "__proto__" →
  Forall (λ t, tname t = "Undefined") (ftypes s) →
  properties (_doc (body (getMapping (getCollectionSchema collection schema)
                            singularize))) !! fname s
    = Some {| p_type := "text";
              p_fields := Some {| keyword := {| kw_type := "keyword";
                                                ignore_above := 256 |} |} |}.
Proof.
  intros Hin Hunique Hres Hproto Hall. rewrite pipeline_lookup by done.
  unfold resolveField, findBestProbabilityType.
  rewrite filter_none; [done|].
  induction Hall as [|t l Ht _ IH]; constructor; [|done].
  intros Hne. by apply Hne.
Qed.

(** X4.  A probed field whose best type is a [Document] is mapped as
    [geo_point] when its nested fields are named [lat] and [lon], in either
    order and with nothing else, and has no entry in the property table
    otherwise; this when no other probed field bears its name, which is
    neither a reserved one nor [__proto__]. *)
Theorem document_field_mapping `{Runtime} (collection : Collection)
    (schema : Schema) (singularize : bool) (s : SchemaField)
    (type : SchemaType) :
  s ∈ s_fields schema →
  (∀ s', s' ∈ s_fields schema → fname s' = fname s → s' = s) →
  fname s ∉ reservedNames →
  fname s ≠ "__proto__" →
  findBestProbabilityType (ftypes s) = Best type →
  tname type = "Document" →
  let props := properties (_doc (body (getMapping
                 (getCollectionSchema collection schema) singularize))) in
  (map fname (fields type) ≡ₚ ["lat"; "lon"] →
   props !! fname s = Some {| p_type := "geo_point"; p_fields := None |}) ∧
  (¬ map fname (fields type) ≡ₚ ["lat"; "lon"] → props !! fname s = None).
Proof.
  intros Hin Hunique Hres Hproto Hbest Hdoc props.
  assert (props !! fname s =
          if isLatLon (fields type)
          then Some {| p_type := "geo_point"; p_fields := None |} else None)
    as Hprops.
  { unfold props. rewrite pipeline_lookup by done.
    unfold resolveField. rewrite Hbest, Hdoc. simpl.
    by destruct (isLatLon (fields type)). }
  rewrite Hprops, <- isLatLon_spec.
  split; intros Hgeo; [by rewrite Hgeo|]. by destruct (isLatLon (fields type)).
Qed.

(** X21.  The property table of [getMapping] is built from the non-null
    fields with a name other than [_id], [__v], [id] and [__proto__], taken
    in order, each one putting under its name the entry that
    [propertyTable] has for its type ([String] gives text with a keyword
    sub-field capped at 256, [Number] double, [Boolean] boolean, [Date]
    date, [GeoPoint] geo_point) and nothing when its type is not one of the
    five.  Hence the table has no entry under one of these four names, each
    of its entries is the table entry of the type of a non-null field of
    that name, and a field with another name finds under its name exactly
    the table entry of its type, or nothing, the fields of one name having
    one type (as they do when names are distinct). *)
Theorem getMapping_property_table `{Runtime} (cs : CollectionSchema)
    (singularize : bool) :
  let props := properties (_doc (body (getMapping cs singularize))) in
  props = fold_left emitEntry
            (filter (λ f, rf_name f ∉ "__proto__" :: reservedNames)
                    (omap id (cs_fields cs)))
            ∅ ∧
  (∀ k, k ∈ "__proto__" :: reservedNames → props !! k = None) ∧
  (∀ k p, props !! k = Some p →
     ∃ f, Some f ∈ cs_fields cs ∧ rf_name f = k ∧
          (k ∉ "__proto__" :: reservedNames) ∧
          tableEntry (rf_type f) = Some p) ∧
  (∀ f, Some f ∈ cs_fields cs →
     rf_name f ∉ "__proto__" :: reservedNames →
     (∀ g, Some g ∈ cs_fields cs → rf_name g = rf_name f →
           rf_type g = rf_type f) →
     props !! rf_name f = tableEntry (rf_type f)) ∧
  (∀ type, tableEntry type = None ↔
           type ∉ ["String"; "Number"; "Boolean"; "Date"; "GeoPoint"]).
Proof.
  assert (∀ k, k ∈ reservedNames ↔ k ∈ exclude) as Hres.
  { intros k. unfold reservedNames, exclude. set_solver. }
  simpl. repeat split.
  - rewrite fold_assign_emit, mappedFields_reserved, list_filter_filter.
    f_equal. apply list_filter_iff. intros f. rewrite not_elem_of_cons. tauto.
  - intros k Hk.
    destruct (fold_left assignProperty (mappedFields (cs_fields cs)) ∅ !! k)
      as [p|] eqn:Hp; [|done].
    apply fold_assign_Some in Hp as [Hp|(f & Hf & <- & Hproto & _)]; [done|].
    apply elem_of_mappedFields in Hf as [_ Hf].
    apply elem_of_cons in Hk as [Hk|Hk]; [done|]. by apply Hres in Hk.
  - intros k p Hp.
    apply fold_assign_Some in Hp as [Hp|(f & Hf & <- & Hproto & Ht)]; [done|].
    apply elem_of_mappedFields in Hf as [Hin Hf].
    exists f. repeat split; try done.
    rewrite not_elem_of_cons, Hres. by split.
  - intros f Hin Hf Hagree. apply not_elem_of_cons in Hf as [Hproto Hf].
    by apply (getMapping_lookup cs singularize f).
  - by apply tableEntry_None.
  - by apply tableEntry_None.
Qed.

Section MappingOrder.

Implicit Types (f g : ResolvedField) (l : list ResolvedField).

(** In a list without two fields of one name, a name tells the field. *)
Lemma NoDup_names_eq l f g :
  NoDup (map rf_name l) → f ∈ l → g ∈ l → rf_name f = rf_name g → f = g.
Proof.
  induction l as [|a l IH]; intros Hnd Hf Hg Hname; [by inversion Hf|].
  simpl in Hnd. apply list.NoDup_cons in Hnd as [Ha Hnd].
  apply elem_of_cons in Hf as [->|Hf]; apply elem_of_cons in Hg as [->|Hg].
  - done.
  - destruct Ha. rewrite Hname. apply list_elem_of_fmap. by exists g.
  - destruct Ha. rewrite <- Hname. apply list_elem_of_fmap. by exists f.
  - by apply IH.
Qed.

Lemma mappedFields_omap f (fs : list (option ResolvedField)) :
  f ∈ mappedFields fs → f ∈ omap id fs.
Proof. unfold mappedFields. rewrite list_elem_of_filter. tauto. Qed.

End MappingOrder.

(** X5.  When no two non-null fields of a schema have one name, the property
    table does not depend on the order of the fields. *)
Theorem getMapping_order_independent `{Runtime} (cs1 cs2 : CollectionSchema)
    (singularize : bool) :
  cs_fields cs1 ≡ₚ cs_fields cs2 →
  NoDup (map rf_name (omap id (cs_fields cs1))) →
  properties (_doc (body (getMapping cs1 singularize))) =
  properties (_doc (body (getMapping cs2 singularize))).
Proof.
  intros Hperm Hnd. simpl. apply map_eq. intros k.
  assert (mappedFields (cs_fields cs1) ≡ₚ mappedFields (cs_fields cs2)) as Hm.
  { unfold mappedFields. by rewrite Hperm. }
  assert (∃ e, ∀ g, g ∈ mappedFields (cs_fields cs1) → rf_name g = k →
                    tableEntry (rf_type g) = e) as [e He].
  { destruct (decide (k ∈ map rf_name (mappedFields (cs_fields cs1))))
      as [Hk|Hk].
    - apply list_elem_of_fmap in Hk as (f & -> & Hf).
      exists (tableEntry (rf_type f)). intros g Hg Hname.
      by rewrite (NoDup_names_eq _ g f Hnd (mappedFields_omap _ _ Hg)
                    (mappedFields_omap _ _ Hf) Hname).
    - exists None. intros g Hg Hname. destruct Hk.
      apply list_elem_of_fmap. by exists g. }
  destruct (decide (k = "__proto__")) as [->|Hproto].
  { by rewrite !fold_assign_proto. }
  rewrite (fold_assign_agree _ _ _ e Hproto He).
  rewrite (fold_assign_agree _ _ _ e Hproto).
  - assert (k ∈ map rf_name (mappedFields (cs_fields cs1)) ↔
            k ∈ map rf_name (mappedFields (cs_fields cs2))) as Hiff.
    { by rewrite Hm. }
    by rewrite (bool_decide_ext _ _ Hiff).
  - intros g Hg. apply He. by rewrite Hm.
Qed.

(** ** Normalised documents *)

Section NoDate.

Context `{Runtime}.

Lemma fold_andb_Forall (test : Value → bool) (props : gmap string Value) :
  map_fold (λ _ v b, test v && b) true props = true ↔
  map_Forall (λ _ v, test v = true) props.
Proof.
  induction props as [|k v props Hk Hfirst IH] using map_first_key_ind.
  - rewrite map_fold_empty.
    split; [intros _; apply map_Forall_empty | intros _; reflexivity].
  - rewrite map_fold_insert_first_key by done.
    rewrite andb_true_iff, IH, map_Forall_insert by done. tauto.
Qed.

Lemma noDate_object (props : gmap string Value) :
  noDate (VObject props) = true ↔
  map_Forall (λ _ v, noDate v = true) props.
Proof. apply fold_andb_Forall. Qed.

Lemma validDates_object (props : gmap string Value) :
  validDates (VObject props) = true ↔
  map_Forall (λ _ v, validDates v = true) props.
Proof. apply fold_andb_Forall. Qed.

Lemma plain_object (props : gmap string Value) :
  plain (VObject props) = true ↔
  props !! "__proto__" = None ∧ map_Forall (λ _ v, plain v = true) props.
Proof.
  simpl. by rewrite andb_true_iff, bool_decide_eq_true, fold_andb_Forall.
Qed.

Lemma serialize_is_Some (data : gmap string Value) :
  is_Some (serialize data) ↔
  map_Forall (λ _ v, is_Some (serializeValue v)) data.
Proof.
  split.
  - intros [out Hout]. by apply buildResult_Some in Hout as [Hall _].
  - intros Hall. eexists. by apply buildResult_Some.
Qed.

(** What [serialize] stores has no date outside arrays. *)
Lemma serializeValue_noDate (v v' : Value) :
  serializeValue v = Some v' → noDate v' = true.
Proof.
  revert v'.
  assert (∀ props,
    map_Forall (λ _ v, ∀ v', serializeValue v = Some v' → noDate v' = true)
               props →
    ∀ out, serialize props = Some out → noDate (VObject out) = true) as Hobj.
  { intros props IH out Hout. apply noDate_object. intros k w Hk.
    pose proof (serialize_lookup _ _ k Hout) as Hlook. rewrite Hk in Hlook.
    destruct (String.eqb k "__proto__"); [done|].
    destruct (props !! k) as [u|] eqn:Hu; [|done]. simpl in Hlook.
    by apply (IH k u Hu). }
  induction v as [v Hv Hv'|props IH|class props IH] using Value_object_ind;
    intros v'.
  - destruct v; try (by intros [= <-]).
    + simpl. destruct (validTime time); [|done]. by intros [= <-].
    + by destruct (Hv props).
    + by destruct (Hv' class props).
  - rewrite serializeValue_object.
    destruct (serialize props) as [out|] eqn:Hout; [|done].
    intros [= <-]. by apply (Hobj props).
  - rewrite serializeValue_instance.
    destruct (serialize props) as [out|] eqn:Hout; [|done].
    intros [= <-]. by apply (Hobj props).
Qed.

(** [serialize] throws on the values that hold, outside arrays, a date
    without a time value, and on no other. *)
Lemma serializeValue_valid (v : Value) :
  is_Some (serializeValue v) ↔ validDates v = true.
Proof.
  assert (∀ props,
    map_Forall (λ _ v, is_Some (serializeValue v) ↔ validDates v = true)
               props →
    is_Some (VObject <$> serialize props) ↔ validDates (VObject props) = true)
    as Hobj.
  { intros props IH. rewrite fmap_is_Some, serialize_is_Some, validDates_object.
    split; intros Hall k u Hk; apply (IH k u Hk), (Hall k u Hk). }
  induction v as [v Hv Hv'|props IH|class props IH] using Value_object_ind.
  - destruct v; try (by split; [|eexists]).
    + simpl. destruct (validTime time); [by split; [|eexists]|].
      split; [by intros [? ?]|done].
    + by destruct (Hv props).
    + by destruct (Hv' class props).
  - by apply Hobj.
  - by apply Hobj.
Qed.

(** [serialize] stores a value as it is when the value is plain, and only
    then. *)
Lemma serializeValue_plain (v : Value) :
  serializeValue v = Some v ↔ plain v = true.
Proof.
  induction v as [v Hv Hv'|props IH|class props IH] using Value_object_ind.
  - destruct v; try done.
    + simpl. destruct (validTime time); by split.
    + by destruct (Hv props).
    + by destruct (Hv' class props).
  - rewrite serializeValue_object, plain_object.
    assert (VObject <$> serialize props = Some (VObject props) ↔
            serialize props = Some props) as ->.
    { destruct (serialize props) as [out|]; simpl; [|by split].
      split; intros [= ->]; done. }
    rewrite serialize_fixed.
    split; intros [Hproto Hall]; (split; [done|]);
      intros k u Hk; apply (IH k u Hk), (Hall k u Hk).
  - rewrite serializeValue_instance. simpl.
    destruct (serialize props); by split.
Qed.

Lemma serialize_dom (data out : gmap string Value) :
  serialize data = Some out → dom out = dom data ∖ {[ "__proto__" ]}.
Proof.
  intros Hout. apply set_eq. intros k.
  rewrite elem_of_difference, !elem_of_dom, not_elem_of_singleton.
  rewrite (serialize_lookup _ _ k Hout).
  assert (is_Some (serialize data)) as Hall by by eexists.
  rewrite serialize_is_Some in Hall.
  destruct (String.eqb_spec k "__proto__") as [->|Hne].
  - split; [by intros [? ?]|by intros [_ ?]].
  - destruct (data !! k) as [v|] eqn:Hk; simpl.
    + split; [by eauto|]. intros _. by apply (Hall k v).
    + split; [by intros [? ?]|by intros [[? ?] _]].
Qed.

End NoDate.

(** X6.  The result of [serialize] holds no date outside arrays, at any
    depth of nested objects. *)
Theorem serialize_leaves_no_date `{Runtime} (data out : gmap string Value) :
  serialize data = Some out → noDate (VObject out) = true.
Proof.
  intros Hout. apply (serializeValue_noDate (VObject data)).
  by rewrite serializeValue_object, Hout.
Qed.

(** X7.  [serialize] gives back the very tree it was given exactly when that
    tree is plain: outside arrays it holds no date and no instance of a
    class, and no object of it, the tree included, has an own key
    [__proto__]. *)
Theorem serialize_fixed_point `{Runtime} (data : gmap string Value) :
  serialize data = Some data ↔ plain (VObject data) = true.
Proof.
  rewrite <- serializeValue_plain, serializeValue_object.
  destruct (serialize data) as [out|]; simpl; [|by split].
  split; intros [= ->]; done.
Qed.

(** X22.  [serialize] returns a tree exactly when every date of its argument
    outside arrays has a time value.  The tree it returns has the keys of
    its argument but [__proto__]; under each of them, a date has become the
    text [toISOString] gives for it, an array is the array that was there,
    elements untouched (a date in it stays a date), a nested object, plain
    or instance of a class, is the plain object that [serialize] returns
    for it, and any other value is the value that was there. *)
Theorem serialize_contract `{Runtime} (data : gmap string Value) :
  (is_Some (serialize data) ↔ validDates (VObject data) = true) ∧
  ∀ out, serialize data = Some out →
    dom out = dom data ∖ {[ "__proto__" ]} ∧
    ∀ key value, data !! key = Some value → key ≠ "__proto__" →
      ∃ result, out !! key = Some result ∧
        match value with
        | VDate time =>
            validTime time = true ∧ result = VString (toISOString time)
        | VArray elements => result = VArray elements
        | VObject props | VInstance _ props =>
            ∃ nested, serialize props = Some nested ∧ result = VObject nested
        | VUndefined | VNull | VBool _ | VNumber _ | VString _ =>
            result = value
        end.
Proof.
  split.
  - rewrite <- serializeValue_valid, serializeValue_object.
    by rewrite fmap_is_Some.
  - intros out Hout. split; [by apply serialize_dom|].
    intros key value Hkey Hne.
    pose proof (serialize_lookup _ _ key Hout) as Hlook.
    rewrite Hkey in Hlook. simpl in Hlook.
    destruct (String.eqb_spec key "__proto__") as [?|_]; [done|].
    assert (is_Some (serializeValue value)) as [result Hresult].
    { assert (is_Some (serialize data)) as Hall by by eexists.
      rewrite serialize_is_Some in Hall. by apply (Hall key). }
    exists result. split; [congruence|].
    destruct value; simpl in Hresult; try (by injection Hresult as <-).
    + destruct (validTime time); [|done]. by injection Hresult as <-.
    + destruct (buildResult serializeValue props) as [nested|] eqn:Hn; [|done].
      exists nested. split; [done|]. by injection Hresult as <-.
    + destruct (buildResult serializeValue props) as [nested|] eqn:Hn; [|done].
      exists nested. split; [done|]. by injection Hresult as <-.
Qed.

(** ** The bulk array *)

Section BulkFacts.

Context `{Runtime}.

Implicit Types (cs : CollectionSchema) (bulk : list BulkItem).
Implicit Types (document body : gmap string Value).
Implicit Types (docs : list (gmap string Value)).



Lemma idToString_Some document id :
  idToString (document !! "_id") = Some id →
  ∃ v, document !! "_id" = Some v ∧ v ≠ VUndefined ∧ v ≠ VNull ∧
       id = toStringJS v.
Proof.
  destruct (document !! "_id") as [v|] eqn:Hv; [|done].
  intros Hid. exists v. by destruct v; simplify_eq/=.
Qed.




(** Where the items of a document stand in the array. *)
Lemma pushDocuments_lookup flag cs docs bulk0 bulk i document :
  pushDocuments flag cs bulk0 docs = Returned bulk →
  docs !! i = Some document →
  ∃ v body,
    document !! "_id" = Some v ∧
    serialize (delete "__v" (delete "_id" document)) = Some body ∧
    bulk !! (length bulk0 + 2 * i)%nat =
      Some (ActionItem
              {| _index := if flag then singular (cs_name cs) else cs_name cs;
                 _type := "_doc";
                 _id := toStringJS v |}) ∧
    bulk !! (length bulk0 + 2 * i + 1)%nat = Some (DocumentItem body).
Proof.
  revert bulk0 i. induction docs as [|d docs IH]; intros bulk0 i Hpush Hi;
    [by rewrite lookup_nil in Hi|].
  cbn [pushDocuments] in Hpush.
  destruct (idToString (d !! "_id")) as [id|] eqn:Hid; [|done].
  destruct (serialize (delete "__v" (delete "_id" d))) as [body|] eqn:Hbody;
    [|done].
  destruct i as [|i].
  - injection Hi as ->.
    apply idToString_Some in Hid as (v & Hv & _ & _ & ->).
    exists v, body. split; [done|]. split; [done|].
    destruct (pushDocuments_appends _ _ _ _ _ Hpush) as (added & -> & _).
    rewrite <- !app_assoc. rewrite Nat.add_0_r.
    split.
    + by rewrite lookup_app_r, Nat.sub_diag by lia.
    + rewrite lookup_app_r by lia.
      by replace (length bulk0 + 1 - length bulk0)%nat with 1%nat by lia.
  - destruct (IH _ i Hpush Hi) as (v & body' & Hv & Hbody' & Ha & Hb).
    exists v, body'. split; [done|]. split; [done|].
    rewrite length_app in Ha, Hb. simpl in Ha, Hb.
    replace (length bulk0 + 2 * S i)%nat
      with (length bulk0 + 2 + 2 * i)%nat by lia.
    done.
Qed.

(** A document body of the array was there before or is what [serialize]
    returned for a fetched document without its [_id] and [__v]. *)
Lemma pushDocuments_bodies flag cs docs bulk0 bulk body :
  pushDocuments flag cs bulk0 docs = Returned bulk →
  DocumentItem body ∈ bulk →
  DocumentItem body ∈ bulk0 ∨
  ∃ document, document ∈ docs ∧
    serialize (delete "__v" (delete "_id" document)) = Some body.
Proof.
  revert bulk0. induction docs as [|d docs IH]; intros bulk0 Hpush Hin.
  - simpl in Hpush. injection Hpush as <-. by left.
  - cbn [pushDocuments] in Hpush.
    destruct (idToString (d !! "_id")) as [id|] eqn:Hid; [|done].
    destruct (serialize (delete "__v" (delete "_id" d))) as [body'|]
      eqn:Hbody; [|done].
    destruct (IH _ Hpush Hin) as [Hold|(document & Hdoc & Hser)].
    + apply elem_of_app in Hold as [Hold|Hold]; [by left|].
      right. exists d. split; [apply list_elem_of_here|].
      apply elem_of_cons in Hold as [Hold|Hold]; [discriminate Hold|].
      apply list_elem_of_singleton in Hold. by injection Hold as ->.
    + right. exists document. split; [|done]. by apply list_elem_of_further.
Qed.

End BulkFacts.


(** X9.  In the array filled for a collection, the document at place [i] of
    the fetch has its action descriptor at place [2 i], with the index name
    of the naming rule, the type [_doc] and the text of its [_id], and has
    its normalised body, without [_id] and [__v], at place [2 i + 1]; the
    array has no other item. *)
Theorem bulk_layout `{Runtime} (flag : bool) (cs : CollectionSchema)
    (docs : list (gmap string Value)) (bulk : list BulkItem) (i : nat)
    (document : gmap string Value) :
  pushDocuments flag cs [] docs = Returned bulk →
  docs !! i = Some document →
  length bulk = (2 * length docs)%nat ∧
  ∃ v body, document !! "_id" = Some v ∧
    serialize (delete "__v" (delete "_id" document)) = Some body ∧
    bulk !! (2 * i)%nat =
      Some (ActionItem
              {| _index := if flag then singular (cs_name cs) else cs_name cs;
                 _type := "_doc";
                 _id := toStringJS v |}) ∧
    bulk !! (2 * i + 1)%nat = Some (DocumentItem body).
Proof.
  intros Hpush Hi. split.
  - by destruct (pushDocuments_appends _ _ _ _ _ Hpush) as (added & -> & Hlen & _).
  - exact (pushDocuments_lookup _ _ _ _ _ _ _ Hpush Hi).
Qed.

(** X10.  Every document body of the array is what [serialize] returned for
    a fetched document without its [_id] and [__v]: its keys are the keys
    of that document other than [_id], [__v] and [__proto__], and it holds
    no date outside arrays. *)
Theorem bulk_bodies_clean `{Runtime} (flag : bool) (cs : CollectionSchema)
    (docs : list (gmap string Value)) (bulk : list BulkItem)
    (body : gmap string Value) :
  pushDocuments flag cs [] docs = Returned bulk →
  DocumentItem body ∈ bulk →
  body !! "_id" = None ∧ body !! "__v" = None ∧ body !! "__proto__" = None ∧
  noDate (VObject body) = true ∧
  ∃ document, document ∈ docs ∧
    serialize (delete "__v" (delete "_id" document)) = Some body ∧
    dom body = dom document ∖ {[ "_id"; "__v"; "__proto__" ]}.
Proof.
  intros Hpush Hbody.
  destruct (pushDocuments_bodies _ _ _ _ _ _ Hpush Hbody)
    as [Hin|(document & Hdoc & Hser)]; [by inversion Hin|].
  pose proof (serialize_dom _ _ Hser) as Hdom.
  rewrite !dom_delete_L in Hdom.
  assert (∀ k, k ∈ ({[ "_id"; "__v"; "__proto__" ]} : gset string) →
               body !! k = None) as Hout.
  { intros k Hk. apply not_elem_of_dom. rewrite Hdom. set_solver. }
  split; [apply Hout; set_solver|]. split; [apply Hout; set_solver|].
  split; [apply Hout; set_solver|]. split.
  - apply (serializeValue_noDate (VObject (delete "__v" (delete "_id" document)))).
    by rewrite serializeValue_object, Hser.
  - exists document. split; [done|]. split; [done|].
    rewrite Hdom. set_solver.
Qed.

(** ** The last loop of [run] *)

Section LoopFacts.

Context {World : Type} `{Runtime} `{Servers World}.

Implicit Types (cs : CollectionSchema) (st : State World).
Implicit Types (bulk : list BulkItem) (docs : list (gmap string Value)).

Lemma afterFetch_trace cs st docs st1 :
  afterFetch cs st = (Returned docs, st1) →
  ∃ n, trace st1 = trace st ++
         [ Log (" Syncing " +:+ cs_name cs);
           EstimatedDocumentCount (cs_name cs);
           Log (" Estimated documents count: " +:+ toStringJS (VNumber n));
           Find (cs_name cs) ].
Proof.
  unfold afterFetch, mbind, M_bind, emit, call. simpl.
  destruct (estimatedDocumentCount (cs_name cs) (world st)) as [[n|err] w1];
    [|done].
  simpl. destruct (find (cs_name cs) w1) as [[docs'|err] w2]; [|done].
  intros [= <- <-]. exists n. simpl. by rewrite <- !app_assoc.
Qed.

(** A fetch that fails has called [find] for its collection or for none,
    and has sent no bulk request. *)
Lemma afterFetch_failed cs st e st1 :
  afterFetch cs st = (Threw e, st1) →
  ∃ evs, trace st1 = trace st ++ evs ∧
    fetchedNames evs `prefix_of` [cs_name cs] ∧ bulkRequests evs = [].
Proof.
  unfold afterFetch, mbind, M_bind, emit, call. simpl.
  destruct (estimatedDocumentCount (cs_name cs) (world st)) as [[n|err] w1];
    simpl.
  - destruct (find (cs_name cs) w1) as [[docs'|err] w2]; [done|].
    intros [= _ <-]. simpl. rewrite <- !app_assoc. eexists.
    split; [done|]. by split.
  - intros [= _ <-]. simpl. rewrite <- !app_assoc. eexists.
    split; [done|]. split; [apply prefix_nil|done].
Qed.

(** What one turn of the loop adds to the trace: the fetch, then at most one
    bulk request, which carries the whole array. *)
Lemma syncCollection_trace flag cs st r st' :
  syncCollection flag cs st = (r, st') →
  ∃ evs, trace st' = trace st ++ evs ∧
    fetchedNames evs `prefix_of` [cs_name cs] ∧
    (r = Returned () → fetchedNames evs = [cs_name cs]) ∧
    (bulkRequests evs = [] ∨
     ∃ docs st1 bulk,
       afterFetch cs st = (Returned docs, st1) ∧
       fetchedNames evs = [cs_name cs] ∧
       bulkRequests evs = [{| refresh := true; bulk_body := bulk |}] ∧
       pushDocuments flag cs [] docs = Returned bulk ∧ bulk ≠ []).
Proof.
  intros Hrun. rewrite syncCollection_steps in Hrun.
  destruct (afterFetch cs st) as [[docs|e] st1] eqn:Hfetch.
  2: { injection Hrun as <- <-.
       destruct (afterFetch_failed _ _ _ _ Hfetch) as (evs & Htr & Hpre & Hno).
       exists evs. split; [done|]. split; [done|]. split; [done|]. by left. }
  destruct (afterFetch_trace _ _ _ _ Hfetch) as [n Htr].
  destruct (pushDocuments flag cs [] docs) as [[|item bulk]|] eqn:Hpush.
  - injection Hrun as _ <-. eexists. split; [exact Htr|]. split; [done|].
    split; [done|]. by left.
  - simpl in Hrun.
    destruct (esBulk _ (world st1)) as [answer w3].
    exists ([ Log (" Syncing " +:+ cs_name cs);
              EstimatedDocumentCount (cs_name cs);
              Log (" Estimated documents count: " +:+ toStringJS (VNumber n));
              Find (cs_name cs);
              Bulk {| refresh := true; bulk_body := item :: bulk |} ]).
    split.
    + destruct answer as [res|err];
        [destruct (error res) as [e|]; [destruct (truthy e)|]|];
        injection Hrun as _ <-; simpl; rewrite Htr, <- app_assoc; done.
    + split; [done|]. split; [done|]. right.
      by exists docs, st1, (item :: bulk).
  - injection Hrun as _ <-. eexists. split; [exact Htr|]. split; [done|].
    split; [done|]. by left.
Qed.


(** X12.  Whatever the servers answer, the loop fetches the collections in
    the order of the list of schemas, each one once and none skipped, up to
    the collection where it stops; when it returns, every collection was
    fetched; and it sends at most one bulk request per fetched collection. *)
Theorem collections_fetched_in_order flag
    (css : list CollectionSchema) st r st' :
  syncCollections flag css st = (r, st') →
  ∃ evs, trace st' = trace st ++ evs ∧
    fetchedNames evs `prefix_of` map cs_name css ∧
    (r = Returned () → fetchedNames evs = map cs_name css) ∧
    (length (bulkRequests evs) ≤ length (fetchedNames evs))%nat.
Proof.
  revert st. induction css as [|cs css IH]; intros st Hrun.
  - injection Hrun as _ <-. exists []. rewrite app_nil_r. by repeat split.
  - simpl in Hrun. unfold mbind, M_bind at 1 in Hrun.
    destruct (syncCollection flag cs st) as [r1 st1'] eqn:Hone.
    destruct (syncCollection_trace _ _ _ _ _ Hone)
      as (evs1 & Htr1 & Hpre1 & Hnames1 & Hbulk1).
    assert (length (bulkRequests evs1) ≤ length (fetchedNames evs1))%nat
      as Hone_bulk.
    { destruct Hbulk1 as [->|(docs & st1 & bulk & _ & -> & -> & _)]; simpl; lia. }
    destruct r1 as [[]|e].
    + destruct (IH _ Hrun) as (evs2 & Htr2 & Hpre & Hall & Hcount).
      exists (evs1 ++ evs2). unfold fetchedNames, bulkRequests in *.
      rewrite !omap_app, (Hnames1 eq_refl), !length_app. simpl.
      rewrite (Hnames1 eq_refl) in Hone_bulk. simpl in Hone_bulk.
      repeat split.
      * by rewrite Htr2, Htr1, <- app_assoc.
      * by apply prefix_cons.
      * intros Hr. by rewrite (Hall Hr).
      * lia.
    + injection Hrun as <- <-. exists evs1. repeat split.
      * done.
      * etrans; [exact Hpre1|]. simpl. apply prefix_cons, prefix_nil.
      * done.
      * done.
Qed.


(** X14.  A bulk request sent for a collection asks for a refresh and
    carries the array of the whole fetch, two items per fetched document;
    no collection gets a request for a part of its documents. *)
Theorem bulk_request_carries_whole_fetch flag cs st docs st1 r st' request :
  afterFetch cs st = (Returned docs, st1) →
  syncCollection flag cs st = (r, st') →
  request ∈ bulkRequests (drop (length (trace st)) (trace st')) →
  refresh request = true ∧
  pushDocuments flag cs [] docs = Returned (bulk_body request) ∧
  length (bulk_body request) = (2 * length docs)%nat ∧
  bulkRequests (drop (length (trace st)) (trace st')) = [request].
Proof.
  intros Hfetch Hrun Hin.
  destruct (syncCollection_trace _ _ _ _ _ Hrun)
    as (evs & Htr & _ & _ & Hbulk).
  rewrite Htr, drop_app_length in Hin. rewrite Htr, drop_app_length.
  destruct Hbulk as [Hnone|(docs' & st1' & bulk & Hfetch' & _ & Hsent & Hpush & _)].
  { rewrite Hnone in Hin. inversion Hin. }
  rewrite Hfetch in Hfetch'. injection Hfetch' as <- <-.
  rewrite Hsent in *. apply list_elem_of_singleton in Hin as ->. simpl.
  split; [done|]. split; [done|]. split; [|done].
  by destruct (pushDocuments_appends _ _ _ _ _ Hpush) as (added & -> & ? & _).
Qed.

End LoopFacts.

(** ** The whole of [run] *)

Section RunFacts.

Context {World : Type} `{Runtime} `{Servers World} `{Endpoints World}.

Implicit Types (st : RunState World) (flags : Flags).
Implicit Types (css : list CollectionSchema) (mappings : list IndexMapping).

(** The events of the probe loop are log lines and probes; the schemas it
    returns are those it was given, then one per collection, compiled from
    what the probe answered for that collection. *)
Lemma probeCollections_trace (collections : list Collection) css st r st' :
  probeCollections collections css st = (r, st') →
  ∃ evs, rtrace st' = rtrace st ++ evs ∧
    Forall (λ e, isIndexCall e = false ∧ isSyncCall e = false ∧ e ≠ Close)
           evs ∧
    match r with
    | Finished css' =>
        ∃ added, css' = css ++ added ∧
          Forall2 (λ c cs, ∃ schema, cs = getCollectionSchema c schema)
                  collections added
    | Failed e => e = TypeError
    | Rejected err => truthy err = true
    end.
Proof.
  revert css st. induction collections as [|c collections IH]; intros css st.
  - intros [= <- <-]. exists []. rewrite !app_nil_r.
    split; [done|]. split; [done|]. exists []. by rewrite app_nil_r.
  - simpl. unfold mbind, RunM_bind, log, parseSchemaPromise. simpl.
    destruct (parseSchema (c_name c) (rworld st)) as [[err result] w].
    destruct (truthy err) eqn:Herr.
    { intros [= <- <-]. eexists. simpl. rewrite <- app_assoc.
      split; [done|]. split; [|done]. by repeat constructor. }
    destruct result as [schema|].
    + intros Hrun. destruct (IH _ _ Hrun) as (evs & Htr & Hevs & Hr).
      simpl in Htr. rewrite <- !app_assoc in Htr. eexists.
      split; [exact Htr|]. split.
      * simpl. by repeat constructor.
      * destruct r; try done. destruct Hr as (added & -> & Hadded).
        exists (getCollectionSchema c schema :: added).
        rewrite <- app_assoc. split; [done|]. constructor; [by exists schema|done].
    + intros [= <- <-]. eexists. simpl. rewrite <- app_assoc.
      split; [done|]. split; [|done]. by repeat constructor.
Qed.

Lemma deletesInPlace_mono (P Q : Prop) evs :
  (P → Q) → deletesInPlace P evs → deletesInPlace Q evs.
Proof.
  intros HPQ Hevs before i after Heq.
  destruct (Hevs before i after Heq) as [Hbefore [[-> HP]|Hafter]].
  - split; [done|]. left. by split; [|apply HPQ].
  - split; [done|]. by right.
Qed.

Lemma deletesInPlace_none (P : Prop) evs :
  Forall (λ e, isIndexCall e = false) evs → deletesInPlace P evs.
Proof.
  intros Hevs before i after ->. apply Forall_app in Hevs as [_ Hevs].
  by inversion Hevs.
Qed.

Lemma deletesInPlace_app (P : Prop) evs1 evs2 :
  deletesInPlace False evs1 → deletesInPlace P evs2 →
  deletesInPlace P (evs1 ++ evs2).
Proof.
  intros Hleft Hright before i after Heq.
  apply app_eq_inv in Heq as [(k & -> & Hk)|(k & -> & ->)].
  - destruct k as [|e k].
    + simpl in Hk. destruct (Hright [] i after) as [[before' Hb] _]; [done|].
      by destruct before'.
    + simpl in Hk. injection Hk as <- ->.
      destruct (Hleft before i k eq_refl) as [Hbefore [[_ []]|[k' ->]]].
      split; [done|]. right. by eexists.
  - destruct (Hright k i after eq_refl) as [[before' ->] Hafter].
    split; [|done]. exists (evs1 ++ before'). by rewrite app_assoc.
Qed.

Lemma deletesInPlace_app_r (P : Prop) evs1 evs2 :
  deletesInPlace (evs2 = [] ∧ P) evs1 →
  Forall (λ e, isIndexCall e = false) evs2 →
  deletesInPlace P (evs1 ++ evs2).
Proof.
  intros Hleft Hright before i after Heq.
  apply app_eq_inv in Heq as [(k & -> & Hk)|(k & -> & ->)].
  - destruct k as [|e k].
    + simpl in Hk. subst evs2. by inversion Hright.
    + simpl in Hk. injection Hk as <- ->.
      destruct (Hleft before i k eq_refl)
        as [Hbefore [(-> & -> & HP)|[k' ->]]].
      * split; [done|]. by left.
      * split; [done|]. right. by eexists.
  - apply Forall_app in Hright as [_ Hright]. by inversion Hright.
Qed.

(** One turn of the loop over the mappings, call by call. *)
Lemma resetIndices_step m mappings st :
  resetIndices (m :: mappings) st =
    let line := Loop (Log (" Creating mapping for " +:+ index m)) in
    let ended err w evs :=
      (Failed (Rejection err),
       {| rworld := w; rtrace := rtrace st ++ line :: evs |}) in
    match indicesExists (index m) (rworld st) with
    | (Rejects err, w1) => ended err w1 [IndicesExists (index m)]
    | (Resolves existed, w1) =>
        let checked :=
          IndicesExists (index m)
          :: (if existed then [IndicesDelete (index m)] else []) in
        match (if existed then indicesDelete (index m) w1
               else (Resolves (), w1)) with
        | (Rejects err, w2) => ended err w2 checked
        | (Resolves _, w2) =>
            match indicesCreate (index m) w2 with
            | (Rejects err, w3) =>
                ended err w3 (checked ++ [IndicesCreate (index m)])
            | (Resolves _, w3) =>
                match putMapping m w3 with
                | (Rejects err, w4) =>
                    ended err w4
                      (checked ++ [IndicesCreate (index m); PutMapping m])
                | (Resolves _, w4) =>
                    resetIndices mappings
                      {| rworld := w4;
                         rtrace := rtrace st ++ resetTurn existed m |}
                end
            end
        end
    end.
Proof.
  simpl. unfold mbind, RunM_bind, log, ask. simpl.
  destruct (indicesExists (index m) (rworld st)) as [[[]|err] w1]; simpl;
    [| |by rewrite <- !app_assoc].
  - destruct (indicesDelete (index m) w1) as [[[]|err] w2]; simpl;
      [|by rewrite <- !app_assoc].
    destruct (indicesCreate (index m) w2) as [[[]|err] w3]; simpl;
      [|by rewrite <- !app_assoc].
    destruct (putMapping m w3) as [[[]|err] w4]; simpl;
      by rewrite <- !app_assoc.
  - destruct (indicesCreate (index m) w1) as [[[]|err] w3]; simpl;
      [|by rewrite <- !app_assoc].
    destruct (putMapping m w3) as [[[]|err] w4]; simpl;
      by rewrite <- !app_assoc.
Qed.

(** The loop over the mappings calls neither the document store nor
    [es.bulk], and it ends on nothing but the rejection of one of its calls.
    It deletes an index right after having checked that it exists and
    creates it right after, and when it returns its events are those of
    one full turn per mapping, in order. *)
Lemma resetIndices_trace mappings st r st' :
  resetIndices mappings st = (r, st') →
  ∃ evs, rtrace st' = rtrace st ++ evs ∧
    Forall (λ e, isSyncCall e = false ∧ e ≠ Close) evs ∧
    deletesInPlace (∃ err, r = Failed (Rejection err)) evs ∧
    match r with
    | Finished _ =>
        ∃ resets : list (bool * IndexMapping),
          resets.*2 = mappings ∧
          evs = concat (map (λ reset, resetTurn reset.1 reset.2) resets)
    | Failed e => ∃ err, e = Rejection err
    | Rejected _ => False
    end.
Proof.
  assert (∀ err (w : World) st evs,
    Forall (λ e, isSyncCall e = false ∧ e ≠ Close) evs →
    deletesInPlace True evs →
    ∃ evs', rtrace {| rworld := w; rtrace := rtrace st ++ evs |}
              = rtrace st ++ evs' ∧
      Forall (λ e, isSyncCall e = false ∧ e ≠ Close) evs' ∧
      deletesInPlace (∃ err', @Failed () (Rejection err)
                              = Failed (Rejection err')) evs' ∧
      ∃ err', Rejection err = Rejection err') as Hended.
  { intros err w st0 evs Hevs Hplace. exists evs. split; [done|].
    split; [done|]. split; [|by eexists].
    eapply deletesInPlace_mono; [|exact Hplace]. intros _. by eexists. }
  revert st. induction mappings as [|m mappings IH]; intros st.
  - intros [= <- <-]. exists []. rewrite app_nil_r.
    split; [done|]. split; [done|]. split; [by apply deletesInPlace_none|].
    by exists [].
  - rewrite resetIndices_step. cbv zeta.
    destruct (indicesExists (index m) (rworld st)) as [[existed|err] w1].
    2: { intros [= <- <-]. apply Hended; [by repeat constructor|].
         intros before i after Heq.
         repeat (destruct before as [|? before]; simplify_eq/=). }
    destruct (if existed then indicesDelete (index m) w1 else (Resolves (), w1))
      as [[[]|err] w2].
    2: { intros [= <- <-]. apply Hended.
         - destruct existed; by repeat constructor.
         - intros before i after Heq. destruct existed;
             repeat (destruct before as [|? before]; simplify_eq/=).
           split; [by eexists [_]|]. by left. }
    destruct (indicesCreate (index m) w2) as [[[]|err] w3].
    2: { intros [= <- <-]. apply Hended.
         - destruct existed; by repeat constructor.
         - intros before i after Heq. destruct existed;
             repeat (destruct before as [|? before]; simplify_eq/=).
           split; [by eexists [_]|]. right. by eexists. }
    destruct (putMapping m w3) as [[[]|err] w4].
    2: { intros [= <- <-]. apply Hended.
         - destruct existed; by repeat constructor.
         - intros before i after Heq. destruct existed;
             repeat (destruct before as [|? before]; simplify_eq/=).
           split; [by eexists [_]|]. right. by eexists. }
    intros Hrun. destruct (IH _ Hrun) as (evs & Htr & Hevs & Hplace & Hr).
    simpl in Htr. rewrite <- app_assoc in Htr.
    exists (resetTurn existed m ++ evs). split; [done|]. split; [|split].
    + apply Forall_app. split; [|done].
      destruct existed; by repeat constructor.
    + apply deletesInPlace_app; [|done].
      intros before i after Heq. unfold resetTurn, resetCalls in Heq.
      destruct existed;
        repeat (destruct before as [|? before]; simplify_eq/=).
      split; [by eexists [_]|]. right. by eexists.
    + destruct r as [[]|e|err]; [|done|done].
      destruct Hr as (resets & <- & ->). by exists ((existed, m) :: resets).
Qed.

(** The events of the last loop, seen from [run]. *)
Lemma Loop_events (evs : list Event) :
  Forall (λ e, isIndexCall e = false ∧ e ≠ Close) (map Loop evs) ∧
  loopEvents (map Loop evs) = evs.
Proof.
  induction evs as [|e evs [IH1 IH2]]; [by split|].
  unfold loopEvents in *. unfold omap in *. simpl. rewrite IH2.
  split; [|done]. by constructor.
Qed.

(** A loop that returns has fetched every collection, in order. *)
Lemma syncCollections_returned flag css (st st' : State World) :
  syncCollections flag css st = (Returned (), st') →
  fetchedNames (trace st') = fetchedNames (trace st) ++ map cs_name css.
Proof.
  revert st. induction css as [|cs css IH]; intros st.
  - intros [= <-]. by rewrite app_nil_r.
  - simpl. unfold mbind, M_bind at 1.
    destruct (syncCollection flag cs st) as [r1 st1'] eqn:Hone.
    destruct (syncCollection_trace _ _ _ _ _ Hone)
      as (evs1 & Htr1 & _ & Hnames1 & _).
    destruct r1 as [[]|e]; [|done]. intros Hrun.
    rewrite (IH _ Hrun), Htr1. unfold fetchedNames in *.
    by rewrite omap_app, (Hnames1 eq_refl), <- app_assoc.
Qed.

Lemma syncLoop_trace flag css st r st' :
  syncLoop flag css st = (r, st') →
  ∃ evs, rtrace st' = rtrace st ++ map Loop evs ∧
    (∀ err, r ≠ Rejected err) ∧
    (r = Finished () → fetchedNames evs = map cs_name css).
Proof.
  unfold syncLoop.
  destruct (syncCollections flag css {| world := rworld st; trace := [] |})
    as [r0 st0] eqn:Hloop.
  intros [= <- <-]. exists (trace st0). split; [done|]. split.
  - by destruct r0.
  - destruct r0 as [[]|e]; [|done]. intros _.
    by rewrite (syncCollections_returned _ _ _ _ Hloop).
Qed.

(** [run] with both addresses given, step by step. *)
Lemma run_steps flags st uri :
  mongoUri flags = Some uri →
  notGiven (mongoUri flags) = false →
  notGiven (elasticsearchUri flags) = false →
  run flags st =
    let connecting := [ Loop (Log "Connecting to source…"); Connect uri ] in
    let listing :=
      connecting ++ [ Loop (Log "Getting collections…"); ListCollections ] in
    match connect uri (rworld st) with
    | (Rejects err, w1) =>
        (Failed (Rejection err),
         {| rworld := w1; rtrace := rtrace st ++ connecting |})
    | (Resolves _, w1) =>
        match listCollections w1 with
        | (Rejects err, w2) =>
            (Failed (Rejection err),
             {| rworld := w2; rtrace := rtrace st ++ listing |})
        | (Resolves collections, w2) =>
            let st2 := {| rworld := w2; rtrace := rtrace st ++ listing |} in
            match probeCollections collections [] st2 with
            | (Finished css, st3) =>
                let mappings :=
                  map (λ cs, getMapping cs (singularizeName flags)) css in
                let st3' :=
                  {| rworld := rworld st3;
                     rtrace := rtrace st3 ++
                       [ Loop (Log
                           "Convert to schema to elasticsearch mapping…");
                         Loop (Log "Creating elasticsearch index…") ] |} in
                match resetIndices mappings st3' with
                | (Finished _, st4) =>
                    let st4' :=
                      {| rworld := rworld st4;
                         rtrace := rtrace st4 ++
                           [ Loop (Log
                               "Syncing mongodb collections to elasticsearch…")
                           ] |} in
                    match syncLoop (singularizeName flags) css st4' with
                    | (Finished _, st5) =>
                        (Finished (),
                         {| rworld := close (rworld st5);
                            rtrace := rtrace st5 ++ [Close] |})
                    | (Failed e, st5) => (Failed e, st5)
                    | (Rejected err, st5) => (Rejected err, st5)
                    end
                | (Failed e, st4) => (Failed e, st4)
                | (Rejected err, st4) => (Rejected err, st4)
                end
            | (Failed e, st3) => (Failed e, st3)
            | (Rejected err, st3) => (Rejected err, st3)
            end
        end
    end.
Proof.
  intros Huri Hmongo Hes. unfold run. rewrite Hmongo, Hes, Huri.
  unfold mbind, RunM_bind, log, act, ask. simpl.
  destruct (connect uri (rworld st)) as [[[]|err] w1]; simpl;
    [|by rewrite <- !app_assoc].
  destruct (listCollections w1) as [[collections|err] w2]; simpl;
    [|by rewrite <- !app_assoc].
  rewrite <- !app_assoc. simpl.
  destruct (probeCollections collections [] _) as [[css|e|err] st3];
    [|done|done].
  rewrite <- ?app_assoc. simpl.
  destruct (resetIndices _ _) as [[[]|e|err] st4]; [|done|done].
  rewrite <- ?app_assoc. simpl.
  by destruct (syncLoop _ _ _) as [[[]|e|err] st5].
Qed.

Lemma no_sync_call (evs : list RunEvent) :
  Forall (λ e, isSyncCall e = false) evs → fetchedNames (loopEvents evs) = [].
Proof.
  unfold fetchedNames, loopEvents, omap.
  induction 1 as [|e evs He _ IH]; [done|].
  destruct e as [[]| | | | | | | |]; try discriminate He; simpl; by rewrite ?IH.
Qed.



(** The trace of a [run] that got past the test of its flags: the
    connection and the probes, then the resets, then the last loop and the
    closing. *)
Lemma run_trace flags st uri r st' :
  mongoUri flags = Some uri →
  notGiven (mongoUri flags) = false →
  notGiven (elasticsearchUri flags) = false →
  run flags st = (r, st') →
  ∃ pre idx post,
    rtrace st' = rtrace st ++ pre ++ idx ++ post ∧
    Forall (λ e, isIndexCall e = false ∧ isSyncCall e = false ∧ e ≠ Close)
           pre ∧
    Forall (λ e, isSyncCall e = false ∧ e ≠ Close) idx ∧
    deletesInPlace (post = [] ∧ ∃ err, r = Failed (Rejection err)) idx ∧
    Forall (λ e, isIndexCall e = false) post ∧
    match r with
    | Finished _ =>
        ∃ w1 collections w2 (resets : list (bool * IndexMapping)) evs,
          connect uri (rworld st) = (Resolves (), w1) ∧
          listCollections w1 = (Resolves collections, w2) ∧
          Forall2 (λ c reset, ∃ schema,
                     reset.2 = getMapping (getCollectionSchema c schema)
                                 (singularizeName flags))
                  collections resets ∧
          idx = concat (map (λ reset, resetTurn reset.1 reset.2) resets) ∧
          post = Loop (Log "Syncing mongodb collections to elasticsearch…")
                 :: map Loop evs ++ [Close] ∧
          fetchedNames evs = map c_name collections
    | Failed _ => Close ∉ post
    | Rejected err => idx = [] ∧ post = [] ∧ truthy err = true
    end.
Proof.
  intros Huri Hmongo Hes Hrun. rewrite (run_steps _ _ _ Huri Hmongo Hes) in Hrun.
  cbv zeta in Hrun.
  assert (∀ (P : Prop), deletesInPlace P []) as Hnil.
  { intros P. by apply deletesInPlace_none. }
  assert (∀ pre e,
    Forall (λ e, isIndexCall e = false ∧ isSyncCall e = false ∧ e ≠ Close)
           pre →
    rtrace st' = rtrace st ++ pre → r = Failed e →
    ∃ pre idx post,
      rtrace st' = rtrace st ++ pre ++ idx ++ post ∧
      Forall (λ e, isIndexCall e = false ∧ isSyncCall e = false ∧ e ≠ Close)
             pre ∧
      Forall (λ e, isSyncCall e = false ∧ e ≠ Close) idx ∧
      deletesInPlace (post = [] ∧ ∃ err, r = Failed (Rejection err)) idx ∧
      Forall (λ e, isIndexCall e = false) post ∧
      Close ∉ post) as Hearly.
  { intros pre e Hpre Htr _. exists pre, [], []. rewrite !app_nil_r.
    split; [done|]. split; [done|]. split; [done|]. split; [apply Hnil|].
    split; [done|]. apply not_elem_of_nil. }
  destruct (connect uri (rworld st)) as [[[]|err] w1] eqn:Hconnect.
  2: { injection Hrun as <- <-. eapply Hearly; [|done|done].
       by repeat constructor. }
  destruct (listCollections w1) as [[collections|err] w2] eqn:Hlist.
  2: { injection Hrun as <- <-. eapply Hearly; [|done|done].
       by repeat constructor. }
  destruct (probeCollections collections [] _) as [rp st3] eqn:Hprobe.
  apply probeCollections_trace in Hprobe as (evsP & HtrP & HevsP & HrP).
  simpl in HtrP. rewrite <- !app_assoc in HtrP. simpl in HtrP.
  assert (Forall
            (λ e, isIndexCall e = false ∧ isSyncCall e = false ∧ e ≠ Close)
            (Loop (Log "Connecting to source…") :: Connect uri
             :: Loop (Log "Getting collections…") :: ListCollections :: evsP))
    as Hpre by by repeat constructor.
  set (pre0 := Loop (Log "Connecting to source…") :: Connect uri
               :: Loop (Log "Getting collections…") :: ListCollections
               :: evsP) in *.
  destruct rp as [css|e|err].
  2: { injection Hrun as <- <-. by eapply Hearly. }
  2: { injection Hrun as <- <-. exists pre0, [], []. rewrite !app_nil_r.
       split; [exact HtrP|]. split; [done|]. split; [done|].
       split; [apply Hnil|]. by repeat split. }
  clear Hearly. destruct HrP as (added & Hcss & Hadded). simpl in Hcss.
  subst css.
  destruct (resetIndices _ _) as [rr st4] eqn:Hreset.
  apply resetIndices_trace in Hreset as (evsR & HtrR & HevsR & Hplace & HrR).
  simpl in HtrR. rewrite HtrP in HtrR.
  set (pre1 := pre0
         ++ [ Loop (Log "Convert to schema to elasticsearch mapping…");
              Loop (Log "Creating elasticsearch index…") ]).
  assert (Forall
            (λ e, isIndexCall e = false ∧ isSyncCall e = false ∧ e ≠ Close)
            pre1) as Hpre1.
  { apply Forall_app. split; [exact Hpre|]. by repeat constructor. }
  destruct rr as [[]|e|err]; [| |done].
  2: { injection Hrun as <- <-. exists pre1, evsR, []. rewrite app_nil_r.
       split; [by unfold pre1; rewrite HtrR, <- !app_assoc|]. split; [done|].
       split; [done|]. split.
       { eapply deletesInPlace_mono; [|exact Hplace]. by intros ?. }
       split; [done|]. apply not_elem_of_nil. }
  destruct HrR as (resets & Hresets & ->).
  assert (∀ P : Prop,
    deletesInPlace P
      (concat (map (λ reset, resetTurn reset.1 reset.2) resets))) as Hplace'.
  { intros P. eapply deletesInPlace_mono; [|exact Hplace].
    by intros [err Herr]. }
  destruct (syncLoop _ _ _) as [rs st5] eqn:Hsync.
  apply syncLoop_trace in Hsync as (evsS & HtrS & Hnorej & Hfetch).
  simpl in HtrS. rewrite HtrR in HtrS.
  destruct (Loop_events evsS) as (HevsS & _).
  exists pre1, (concat (map (λ reset, resetTurn reset.1 reset.2) resets)).
  destruct rs as [[]|e|err].
  - injection Hrun as <- <-.
    exists (Loop (Log "Syncing mongodb collections to elasticsearch…")
            :: map Loop evsS ++ [Close]).
    split.
    { simpl. rewrite HtrS, <- ?app_assoc. simpl. by rewrite <- ?app_assoc. }
    split; [done|]. split; [done|]. split; [done|]. split.
    { constructor; [done|]. apply Forall_app. split; [|by repeat constructor].
      eapply Forall_impl; [|exact HevsS]. by intros ? [? _]. }
    exists w1, collections, w2, resets, evsS.
    split; [done|]. split; [done|]. split.
    { clear -Hadded Hresets. revert resets Hresets.
      induction Hadded as [|c cs collections added [schema ->] _ IH];
        intros [|[existed m] resets] Hresets; simplify_eq/=; constructor.
      - by exists schema.
      - by apply IH. }
    split; [done|]. split; [done|].
    rewrite (Hfetch eq_refl).
    clear -Hadded. induction Hadded as [|c cs ? ? [schema ->] _ IH]; [done|].
    simpl. by rewrite IH.
  - injection Hrun as <- <-.
    exists (Loop (Log "Syncing mongodb collections to elasticsearch…")
            :: map Loop evsS).
    split.
    { rewrite HtrS, <- ?app_assoc. simpl. by rewrite <- ?app_assoc. }
    split; [done|]. split; [done|]. split; [done|]. split.
    { constructor; [done|]. eapply Forall_impl; [|exact HevsS].
      by intros ? [? _]. }
    intros Hin. apply elem_of_cons in Hin as [Hin|Hin]; [discriminate Hin|].
    rewrite Forall_forall in HevsS.
    apply list_elem_of_In in Hin. by destruct (HevsS _ Hin) as [_ ?].
  - by destruct (Hnorej err).
Qed.

Lemma notGiven_false (flag : option string) :
  notGiven flag = false → ∃ uri, flag = Some uri ∧ uri ≠ "".
Proof.
  destruct flag as [uri|]; [|done]. simpl. intros Huri. exists uri.
  split; [done|]. by destruct (String.eqb_spec uri "").
Qed.

(** X15.  Without a [mongoUri], or with an empty one, [run] fails with
    [You must specify a mongoUri]; with it and without an
    [elasticsearchUri], with [You must specify an elasticsearchUri]; in both
    cases nothing was logged and no call was made.  A [run] that leaves a
    trace was given both addresses. *)
Theorem run_needs_both_uris flags st :
  (notGiven (mongoUri flags) = true →
     run flags st = (Failed (CLIError "You must specify a mongoUri"), st)) ∧
  (notGiven (mongoUri flags) = false →
   notGiven (elasticsearchUri flags) = true →
     run flags st
       = (Failed (CLIError "You must specify an elasticsearchUri"), st)) ∧
  (∀ r st', run flags st = (r, st') → rtrace st' ≠ rtrace st →
     ∃ m e, mongoUri flags = Some m ∧ m ≠ "" ∧
            elasticsearchUri flags = Some e ∧ e ≠ "").
Proof.
  unfold run. split; [|split].
  - by intros ->.
  - by intros -> ->.
  - intros r st'.
    destruct (notGiven (mongoUri flags)) eqn:Hm.
    { intros [= _ <-] Hne. by destruct Hne. }
    destruct (notGiven (elasticsearchUri flags)) eqn:He.
    { intros [= _ <-] Hne. by destruct Hne. }
    intros _ _.
    destruct (notGiven_false _ Hm) as (m & ? & ?).
    destruct (notGiven_false _ He) as (e & ? & ?). by exists m, e.
Qed.

(** X16.  When [run] ends on the rejection of a schema probe, the error is
    one that passes the test [if (err)] of the probe's callback, and up to
    there [run] made no call on [es.indices], fetched no document, sent no
    bulk request and did not close the connection. *)
Theorem rejected_probe_touches_no_index flags st err st' :
  run flags st = (Rejected err, st') →
  truthy err = true ∧
  ∃ evs, rtrace st' = rtrace st ++ evs ∧
    Forall (λ e, isIndexCall e = false ∧ isSyncCall e = false ∧ e ≠ Close)
           evs.
Proof.
  intros Hrun.
  destruct (notGiven (mongoUri flags)) eqn:Hm.
  { unfold run in Hrun. by rewrite Hm in Hrun. }
  destruct (notGiven (elasticsearchUri flags)) eqn:He.
  { unfold run in Hrun. by rewrite Hm, He in Hrun. }
  destruct (notGiven_false _ Hm) as (uri & Huri & _).
  destruct (run_trace _ _ _ _ _ Huri Hm He Hrun)
    as (pre & idx & post & Htr & Hpre & _ & _ & _ & -> & -> & Herr).
  split; [done|]. exists pre. by rewrite !app_nil_r in Htr.
Qed.

(** X17.  In the trace of any [run], every call on [es.indices] comes before
    every call of the last loop: no document is counted, fetched or sent
    before the last mapping is installed. *)
Theorem indices_before_sync flags st r st' :
  run flags st = (r, st') →
  ∃ before after,
    rtrace st' = rtrace st ++ before ++ after ∧
    Forall (λ e, isSyncCall e = false) before ∧
    Forall (λ e, isIndexCall e = false) after.
Proof.
  intros Hrun.
  assert (run flags st = (r, st') → st' = st →
          ∃ before after,
            rtrace st' = rtrace st ++ before ++ after ∧
            Forall (λ e, isSyncCall e = false) before ∧
            Forall (λ e, isIndexCall e = false) after) as Hnone.
  { intros _ ->. exists [], []. by rewrite app_nil_r. }
  destruct (notGiven (mongoUri flags)) eqn:Hm.
  { apply Hnone; [done|]. unfold run in Hrun. rewrite Hm in Hrun.
    by injection Hrun. }
  destruct (notGiven (elasticsearchUri flags)) eqn:He.
  { apply Hnone; [done|]. unfold run in Hrun. rewrite Hm, He in Hrun.
    by injection Hrun. }
  destruct (notGiven_false _ Hm) as (uri & Huri & _).
  destruct (run_trace _ _ _ _ _ Huri Hm He Hrun)
    as (pre & idx & post & Htr & Hpre & Hidx & _ & Hpost & _).
  exists (pre ++ idx), post. split; [by rewrite <- app_assoc|].
  split; [|done]. apply Forall_app. split.
  - eapply Forall_impl; [|exact Hpre]. by intros ? (_ & ? & _).
  - eapply Forall_impl; [|exact Hidx]. by intros ? (? & _).
Qed.

(** X18.  [run] closes the connection to the document store exactly when it
    returns, and then as its last step: a [run] that ends on an error leaves
    the connection open. *)
Theorem close_iff_finished flags st r st' :
  run flags st = (r, st') →
  ∃ evs, rtrace st' = rtrace st ++ evs ∧
    (Close ∈ evs ↔ r = Finished ()) ∧
    (r = Finished () → list.last evs = Some Close).
Proof.
  intros Hrun.
  assert (∀ msg, run flags st = (Failed (CLIError msg), st) →
          ∃ evs, rtrace st' = rtrace st ++ evs ∧
            (Close ∈ evs ↔ r = Finished ()) ∧
            (r = Finished () → list.last evs = Some Close)) as Hnone.
  { intros msg Hfail. rewrite Hfail in Hrun. injection Hrun as <- <-.
    exists []. rewrite app_nil_r. split; [done|].
    split; [|done]. split; [intros Hin; inversion Hin|done]. }
  destruct (notGiven (mongoUri flags)) eqn:Hm.
  { eapply Hnone. unfold run. by rewrite Hm. }
  destruct (notGiven (elasticsearchUri flags)) eqn:He.
  { eapply Hnone. unfold run. by rewrite Hm, He. }
  clear Hnone. destruct (notGiven_false _ Hm) as (uri & Huri & _).
  destruct (run_trace _ _ _ _ _ Huri Hm He Hrun)
    as (pre & idx & post & Htr & Hpre & Hidx & _ & _ & Hr).
  exists (pre ++ idx ++ post). split; [done|].
  assert (Close ∉ pre) as Hpre'.
  { intros Hin. rewrite Forall_forall in Hpre.
    apply list_elem_of_In in Hin. by destruct (Hpre _ Hin) as (_ & _ & ?). }
  assert (Close ∉ idx) as Hidx'.
  { intros Hin. rewrite Forall_forall in Hidx.
    apply list_elem_of_In in Hin. by destruct (Hidx _ Hin) as (_ & ?). }
  destruct r as [[]|e|err].
  - destruct Hr as (w1 & collections & w2 & resets & evs & _ & _ & _ & _
                    & -> & _).
    split.
    + split; [done|]. intros _. rewrite !elem_of_app, elem_of_cons, elem_of_app.
      do 3 right. right. apply list_elem_of_here.
    + intros _. rewrite app_comm_cons, !app_assoc. apply last_snoc.
  - split; [|done]. split; [|done]. rewrite !elem_of_app. tauto.
  - destruct Hr as (-> & -> & _). split; [|done]. split; [|done].
    rewrite !elem_of_app. intros [?|[?|Hin]]; [done|done|inversion Hin].
Qed.


(** X20.  Whatever the outcome of a [run], every deletion of an index comes
    right after the check of existence of that index and has the creation
    of that index right after it, unless the deletion is itself rejected:
    it is then the last event of the [run], which ends with the error of
    that rejection and leaves the index deleted. *)
Theorem deleted_indices_recreated flags st r st' :
  run flags st = (r, st') →
  ∃ evs, rtrace st' = rtrace st ++ evs ∧
    ∀ before i after, evs = before ++ IndicesDelete i :: after →
      (∃ before', before = before' ++ [IndicesExists i]) ∧
      ((after = [] ∧ ∃ err, r = Failed (Rejection err)) ∨
       ∃ after', after = IndicesCreate i :: after').
Proof.
  intros Hrun.
  destruct (notGiven (mongoUri flags)) eqn:Hm.
  { unfold run in Hrun. rewrite Hm in Hrun. injection Hrun as _ <-.
    exists []. rewrite app_nil_r. split; [done|].
    intros before i after Heq. by destruct before. }
  destruct (notGiven (elasticsearchUri flags)) eqn:He.
  { unfold run in Hrun. rewrite Hm, He in Hrun. injection Hrun as _ <-.
    exists []. rewrite app_nil_r. split; [done|].
    intros before i after Heq. by destruct before. }
  destruct (notGiven_false _ Hm) as (uri & Huri & _).
  destruct (run_trace _ _ _ _ _ Huri Hm He Hrun)
    as (pre & idx & post & Htr & Hpre & _ & Hplace & Hpost & _).
  exists (pre ++ idx ++ post). split; [done|].
  apply (deletesInPlace_app _ pre (idx ++ post)).
  - apply deletesInPlace_none. eapply Forall_impl; [|exact Hpre].
    by intros ? (? & _).
  - by apply deletesInPlace_app_r.
Qed.

End RunFacts.

(** ** The further properties on the sample inputs *)

(** The objects of a document that are not plain come back as plain objects,
    and its own key [__proto__] is left out. *)
Example serialize_carl :
  @serialize runtimeStub (delete "__v" (delete "_id" carl)) =
  Some {[ "owner" := VObject {[ "id" := VString "5f1c" ]} ]}.
Proof. vm_compute. reflexivity. Qed.

(** A rejected deletion ends the run, with the deletion as its last event:
    the index [places] is neither created nor mapped. *)
Example run_delete_rejected :
  let out := @run unit runtimeStub (serversStub accepted) endpointsRefusing
               flagsStub startRun in
  out.1 = Failed (Rejection (VString "index_closed_exception")) ∧
  list.last (rtrace out.2) = Some (IndicesDelete "places") ∧
  indexCalls (rtrace out.2) =
    [ IndicesExists "user"; IndicesCreate "user";
      PutMapping (@getMapping runtimeStub
                    (getCollectionSchema {| c_name := "users" |} usersProbe)
                    true);
      IndicesExists "places"; IndicesDelete "places" ].
Proof. intros out. split; [|split]; vm_compute; reflexivity. Qed.

(** X1 on a list where [Number] has the largest probability but for an
    [Undefined]. *)
Lemma findBestProbabilityType_strict_max_witness :
  findBestProbabilityType
    ([observation "Undefined" 1%Qc] ++
     observation "Number" (Q2Qc (3 # 5)) ::
     [observation "String" (Q2Qc (2 # 5))])
  = Best (observation "Number" (Q2Qc (3 # 5))).
Proof.
  apply findBestProbabilityType_strict_max; [discriminate|].
  intros t Ht Hne. simpl in Ht.
  apply elem_of_cons in Ht as [->|Ht]; [by destruct Hne|].
  apply list_elem_of_singleton in Ht as ->. reflexivity.
Defined.

(** X2 on the fields [tags], an array of strings, and [visits], an array of
    documents with [lon] and [lat], of the probe of [users]. *)
Lemma array_field_mapped_as_element_witness :
  let cs := getCollectionSchema {| c_name := "users" |} usersProbe in
  let props := properties (_doc (body (@getMapping runtimeStub cs true))) in
  Some {| rf_name := "tags"; rf_type := "String"; isArray := Some true |}
    ∈ cs_fields cs ∧
  props !! "tags" = tableEntry "String" ∧ props !! "visits" = None.
Proof.
  intros cs props.
  assert (∀ s, s ∈ s_fields usersProbe →
            ∀ s', s' ∈ s_fields usersProbe → fname s' = fname s → s' = s)
    as Hunique.
  { intros s Hs s' Hs' Hsame. unfold usersProbe in Hs, Hs'. simpl in Hs, Hs'.
    repeat (apply elem_of_cons in Hs as [->|Hs]);
      try (by inversion Hs);
      repeat (apply elem_of_cons in Hs' as [->|Hs']);
      try (by inversion Hs'); try discriminate Hsame; reflexivity. }
  assert ({| fname := "tags";
             ftypes := [arrayOf [observation "String" 1%Qc]] |}
          ∈ s_fields usersProbe) as Htags.
  { do 2 apply list_elem_of_further. apply list_elem_of_here. }
  assert ({| fname := "visits"; ftypes := [arrayOf [lonLat]] |}
          ∈ s_fields usersProbe) as Hvisits.
  { do 3 apply list_elem_of_further. apply list_elem_of_here. }
  destruct (@array_field_mapped_as_element runtimeStub
              {| c_name := "users" |} usersProbe true _
              (arrayOf [observation "String" 1%Qc]) Htags eq_refl eq_refl)
    as [Hkept Htable].
  split; [exact Hkept|]. split.
  - refine (proj1 (Htable (Hunique _ Htags) _ _)).
    + by apply (bool_decide_unpack _).
    + discriminate.
  - refine (proj2 (proj2 (@array_field_mapped_as_element runtimeStub
              {| c_name := "users" |} usersProbe true _
              (arrayOf [lonLat]) Hvisits eq_refl eq_refl)
              (Hunique _ Hvisits) _ _) _).
    + by apply (bool_decide_unpack _).
    + discriminate.
    + by left.
Defined.

(** X3 on the field [nickname] of the probe of [users], never set. *)
Lemma undefined_field_mapped_as_text_witness :
  properties (_doc (body (@getMapping runtimeStub
    (getCollectionSchema {| c_name := "users" |} usersProbe) false)))
    !! "nickname" = tableEntry "String".
Proof.
  assert ({| fname := "nickname"; ftypes := [observation "Undefined" 1%Qc] |}
          ∈ s_fields usersProbe) as Hin.
  { do 4 apply list_elem_of_further. apply list_elem_of_here. }
  refine (@undefined_field_mapped_as_text runtimeStub {| c_name := "users" |}
            usersProbe false _ Hin _ _ _ _).
  - intros s' Hs' Hsame. unfold usersProbe in Hs'. simpl in Hs'.
    repeat (apply elem_of_cons in Hs' as [->|Hs']; [try discriminate Hsame|]);
      try reflexivity.
    inversion Hs'.
  - by apply (bool_decide_unpack _).
  - discriminate.
  - constructor; [reflexivity|constructor].
Defined.

(** X4 on the fields [where] and [position] of [places]. *)
Lemma document_field_mapping_witness :
  let props := properties (_doc (body (@getMapping runtimeStub
                 (getCollectionSchema {| c_name := "places" |} placesSchema)
                 false))) in
  props !! "where" = Some {| p_type := "geo_point"; p_fields := None |} ∧
  props !! "position" = None.
Proof.
  intros props.
  assert (∀ s, s ∈ s_fields placesSchema →
            ∀ s', s' ∈ s_fields placesSchema → fname s' = fname s → s' = s)
    as Hunique.
  { intros s Hs s' Hs' Hsame. unfold placesSchema in Hs, Hs'.
    simpl in Hs, Hs'.
    repeat (apply elem_of_cons in Hs as [->|Hs]);
      try (by inversion Hs);
      repeat (apply elem_of_cons in Hs' as [->|Hs']);
      try (by inversion Hs'); try discriminate Hsame; reflexivity. }
  split.
  - assert ({| fname := "where"; ftypes := [lonLat] |} ∈ s_fields placesSchema)
      as Hin.
    { do 3 apply list_elem_of_further. apply list_elem_of_here. }
    refine (proj1 (@document_field_mapping runtimeStub {| c_name := "places" |}
              placesSchema false _ lonLat Hin (Hunique _ Hin) _ _
              eq_refl eq_refl) _).
    + by apply (bool_decide_unpack _).
    + discriminate.
    + apply perm_swap.
  - assert ({| fname := "position"; ftypes := [latLonAlt] |}
            ∈ s_fields placesSchema) as Hin.
    { do 2 apply list_elem_of_further. apply list_elem_of_here. }
    refine (proj2 (@document_field_mapping runtimeStub {| c_name := "places" |}
              placesSchema false _ latLonAlt Hin (Hunique _ Hin) _ _
              eq_refl eq_refl) _).
    + by apply (bool_decide_unpack _).
    + discriminate.
    + intros Hperm. apply Permutation_length in Hperm. discriminate Hperm.
Defined.

(** X5 on two fields, in either order. *)
Lemma getMapping_order_independent_witness :
  let name := {| rf_name := "name"; rf_type := "String"; isArray := None |} in
  let age := {| rf_name := "age"; rf_type := "Number"; isArray := None |} in
  properties (_doc (body (@getMapping runtimeStub
    {| cs_name := "users"; cs_fields := [Some name; None; Some age] |} false)))
  = properties (_doc (body (@getMapping runtimeStub
    {| cs_name := "users"; cs_fields := [Some age; Some name; None] |} false))).
Proof.
  intros name age.
  apply (@getMapping_order_independent runtimeStub
           {| cs_name := "users"; cs_fields := [Some name; None; Some age] |}
           {| cs_name := "users"; cs_fields := [Some age; Some name; None] |}).
  - simpl. etrans; [apply perm_skip, perm_swap|]. apply perm_swap.
  - by apply (bool_decide_unpack _).
Defined.

(** X21 on the schema compiled for [places]: the field [label], and the
    name [_id]. *)
Lemma getMapping_property_table_witness :
  let cs := getCollectionSchema {| c_name := "places" |} placesSchema in
  let f := {| rf_name := "label"; rf_type := "String"; isArray := None |} in
  Some f ∈ cs_fields cs ∧
  (rf_name f ∉ "__proto__" :: reservedNames) ∧
  properties (_doc (body (@getMapping runtimeStub cs true))) !! "label"
    = tableEntry "String" ∧
  properties (_doc (body (@getMapping runtimeStub cs true))) !! "_id" = None.
Proof.
  intros cs f.
  assert (Some f ∈ cs_fields cs) as Hin.
  { vm_compute. apply list_elem_of_further, list_elem_of_here. }
  assert (rf_name f ∉ "__proto__" :: reservedNames) as Hname.
  { by apply (bool_decide_unpack _). }
  destruct (@getMapping_property_table runtimeStub cs true)
    as (_ & Hreserved & _ & Hentry & _).
  split; [done|]. split; [done|]. split.
  - apply (Hentry f Hin Hname). intros g Hg Hsame. vm_compute in Hg.
    repeat (apply elem_of_cons in Hg as [Hg|Hg];
            [try discriminate Hg; injection Hg as ->; try discriminate Hsame|]);
      try reflexivity.
    inversion Hg.
  - apply Hreserved. by apply (bool_decide_unpack _).
Defined.

(** X6 on the document of [users], without its identity fields. *)
Lemma serialize_leaves_no_date_witness :
  @serialize runtimeStub (delete "__v" (delete "_id" ann)) = Some annBody ∧
  noDate (VObject annBody) = true.
Proof.
  assert (@serialize runtimeStub (delete "__v" (delete "_id" ann))
          = Some annBody) as Hbody.
  { vm_compute. reflexivity. }
  split; [exact Hbody|].
  exact (@serialize_leaves_no_date runtimeStub _ annBody Hbody).
Defined.

(** X7 on the body sent for the document of [users], and on that document
    as fetched. *)
Lemma serialize_fixed_point_witness :
  @serialize runtimeStub annBody = Some annBody ∧
  @serialize runtimeStub ann ≠ Some ann.
Proof.
  split.
  - apply (proj2 (@serialize_fixed_point runtimeStub annBody)).
    vm_compute. reflexivity.
  - intros Hfix.
    pose proof (proj1 (@serialize_fixed_point runtimeStub ann) Hfix) as Hno.
    vm_compute in Hno. discriminate Hno.
Defined.

(** X22 on the document of [users], without its identity fields. *)
Lemma serialize_contract_witness :
  let data : gmap string Value :=
    {[ "name" := VString "Ann"; "signup" := VDate 0;
       "logins" := VArray [VDate 0];
       "address" := VObject {[ "since" := VDate 0 ]};
       "owner" := objectId "5f1c" ]} in
  ∃ out, @serialize runtimeStub data = Some out ∧
    dom out = dom data ∖ {[ "__proto__" ]} ∧
    out !! "signup" = Some (VString "1970-01-01T00:00:00.000Z") ∧
    out !! "logins" = Some (VArray [VDate 0]) ∧
    (∃ nested, @serialize runtimeStub {[ "since" := VDate 0 ]} = Some nested ∧
               out !! "address" = Some (VObject nested)) ∧
    (∃ nested, @serialize runtimeStub {[ "id" := VString "5f1c" ]}
                 = Some nested ∧
               out !! "owner" = Some (VObject nested)) ∧
    out !! "name" = Some (VString "Ann").
Proof.
  intros data.
  destruct (@serialize_contract runtimeStub data) as [Hsome Hkeys].
  destruct (proj2 Hsome) as [out Hout]; [by vm_compute|].
  destruct (Hkeys out Hout) as [Hdom Hkey].
  exists out. split; [exact Hout|]. split; [exact Hdom|].
  destruct (Hkey "signup" (VDate 0) eq_refl) as (r1 & -> & _ & ->);
    [discriminate|].
  destruct (Hkey "logins" (VArray [VDate 0]) eq_refl) as (r2 & -> & ->);
    [discriminate|].
  destruct (Hkey "address" (VObject {[ "since" := VDate 0 ]}) eq_refl)
    as (r3 & -> & nested3 & Hn3 & ->); [discriminate|].
  destruct (Hkey "owner" (objectId "5f1c") eq_refl)
    as (r4 & -> & nested4 & Hn4 & ->); [discriminate|].
  destruct (Hkey "name" (VString "Ann") eq_refl) as (r5 & -> & ->);
    [discriminate|].
  split; [reflexivity|]. split; [reflexivity|].
  split; [exists nested3; split; [exact Hn3|reflexivity]|].
  split; [exists nested4; split; [exact Hn4|reflexivity]|]. reflexivity.
Defined.




(** X9 on the document of [users]. *)
Lemma bulk_layout_witness :
  length (bulk_body usersRequest) = 2%nat ∧
  ∃ v body, ann !! "_id" = Some v ∧
    @serialize runtimeStub (delete "__v" (delete "_id" ann)) = Some body ∧
    bulk_body usersRequest !! 0%nat =
      Some (ActionItem {| _index := "user"; _type := "_doc";
                          _id := @toStringJS runtimeStub v |}) ∧
    bulk_body usersRequest !! 1%nat = Some (DocumentItem body).
Proof.
  exact (@bulk_layout runtimeStub true usersSchema usersData
           (bulk_body usersRequest) 0 ann eq_refl eq_refl).
Defined.

(** X10 on the body sent for the document of [users]. *)
Lemma bulk_bodies_clean_witness :
  annBody !! "_id" = None ∧ annBody !! "__v" = None ∧
  annBody !! "__proto__" = None ∧
  noDate (VObject annBody) = true ∧
  ∃ document, document ∈ usersData ∧
    @serialize runtimeStub (delete "__v" (delete "_id" document))
      = Some annBody ∧
    dom annBody = dom document ∖ {[ "_id"; "__v"; "__proto__" ]}.
Proof.
  apply (@bulk_bodies_clean runtimeStub true usersSchema usersData
           (bulk_body usersRequest) annBody eq_refl).
  apply list_elem_of_further, list_elem_of_here.
Defined.


(** X12 on the loop over [users] and [places], stopped at [users]. *)
Lemma collections_fetched_in_order_witness :
  let run := @syncCollections unit runtimeStub (serversStub rejected) true
               [usersSchema; emptySchema] start in
  ∃ evs, trace run.2 = trace start ++ evs ∧
    fetchedNames evs `prefix_of` ["users"; "places"] ∧
    (run.1 = Returned () → fetchedNames evs = ["users"; "places"]) ∧
    (length (bulkRequests evs) ≤ length (fetchedNames evs))%nat.
Proof.
  intros run.
  exact (@collections_fetched_in_order unit runtimeStub (serversStub rejected)
           true [usersSchema; emptySchema] start run.1 run.2
           (surjective_pairing run)).
Defined.


(** X14 on the request sent for [users]. *)
Lemma bulk_request_carries_whole_fetch_witness :
  let run := @syncCollection unit runtimeStub (serversStub accepted) true
               usersSchema start in
  refresh usersRequest = true ∧
  @pushDocuments runtimeStub true usersSchema [] usersData
    = Returned (bulk_body usersRequest) ∧
  length (bulk_body usersRequest) = (2 * length usersData)%nat ∧
  bulkRequests (drop (length (trace start)) (trace run.2)) = [usersRequest].
Proof.
  intros run.
  apply (@bulk_request_carries_whole_fetch unit runtimeStub
           (serversStub accepted) true usersSchema start usersData
           (@afterFetch unit runtimeStub (serversStub accepted) usersSchema
              start).2 run.1 run.2 usersRequest eq_refl
           (surjective_pairing run)).
  vm_compute. apply list_elem_of_here.
Defined.

(** X15 on flags without addresses. *)
Lemma run_needs_both_uris_witness :
  @run unit runtimeStub (serversStub accepted) (endpointsStub VNull)
    {| mongoUri := None; elasticsearchUri := None; singularizeName := false |}
    startRun
    = (Failed (CLIError "You must specify a mongoUri"), startRun) ∧
  @run unit runtimeStub (serversStub accepted) (endpointsStub VNull)
    {| mongoUri := Some "mongodb://localhost:27017/source";
       elasticsearchUri := Some ""; singularizeName := false |}
    startRun
    = (Failed (CLIError "You must specify an elasticsearchUri"), startRun).
Proof.
  split.
  - exact (proj1 (@run_needs_both_uris unit runtimeStub (serversStub accepted)
                    (endpointsStub VNull)
                    {| mongoUri := None; elasticsearchUri := None;
                       singularizeName := false |} startRun) eq_refl).
  - exact (proj1 (proj2 (@run_needs_both_uris unit runtimeStub
                           (serversStub accepted) (endpointsStub VNull)
                           {| mongoUri :=
                                Some "mongodb://localhost:27017/source";
                              elasticsearchUri := Some "";
                              singularizeName := false |}
                           startRun)) eq_refl eq_refl).
Defined.

(** X16 on a probe that answers an error. *)
Lemma rejected_probe_touches_no_index_witness :
  let out := @run unit runtimeStub (serversStub accepted)
               (endpointsStub (VString "cursor failed")) flagsStub startRun in
  out.1 = Rejected (VString "cursor failed") ∧
  truthy (VString "cursor failed") = true ∧
  ∃ evs, rtrace out.2 = rtrace startRun ++ evs ∧
    Forall (λ e, isIndexCall e = false ∧ isSyncCall e = false ∧ e ≠ Close)
           evs.
Proof.
  intros out.
  assert (out = (Rejected (VString "cursor failed"), out.2)) as Hout.
  { vm_compute. reflexivity. }
  split; [by rewrite Hout|].
  exact (@rejected_probe_touches_no_index unit runtimeStub
           (serversStub accepted) (endpointsStub (VString "cursor failed"))
           flagsStub startRun (VString "cursor failed") out.2 Hout).
Defined.

(** X17 on a run that returns. *)
Lemma indices_before_sync_witness :
  let out := @run unit runtimeStub (serversStub accepted) (endpointsStub VNull)
               flagsStub startRun in
  ∃ before after,
    rtrace out.2 = rtrace startRun ++ before ++ after ∧
    Forall (λ e, isSyncCall e = false) before ∧
    Forall (λ e, isIndexCall e = false) after.
Proof.
  intros out.
  exact (@indices_before_sync unit runtimeStub (serversStub accepted)
           (endpointsStub VNull) flagsStub startRun out.1 out.2
           (surjective_pairing out)).
Defined.

(** X18 on a run that stops on a rejected bulk request. *)
Lemma close_iff_finished_witness :
  let out := @run unit runtimeStub (serversStub rejected) (endpointsStub VNull)
               flagsStub startRun in
  ∃ evs, rtrace out.2 = rtrace startRun ++ evs ∧
    (Close ∈ evs ↔ out.1 = Finished ()) ∧
    (out.1 = Finished () → list.last evs = Some Close).
Proof.
  intros out.
  exact (@close_iff_finished unit runtimeStub (serversStub rejected)
           (endpointsStub VNull) flagsStub startRun out.1 out.2
           (surjective_pairing out)).
Defined.


(** X20 on a run that returns, where the index [places] existed, and on a
    run whose deletion of that index is rejected. *)
Lemma deleted_indices_recreated_witness :
  let out := @run unit runtimeStub (serversStub accepted) (endpointsStub VNull)
               flagsStub startRun in
  let out' := @run unit runtimeStub (serversStub accepted) endpointsRefusing
                flagsStub startRun in
  (∃ evs, rtrace out.2 = rtrace startRun ++ evs ∧
     ∀ before i after, evs = before ++ IndicesDelete i :: after →
       (∃ before', before = before' ++ [IndicesExists i]) ∧
       ((after = [] ∧ ∃ err, out.1 = Failed (Rejection err)) ∨
        ∃ after', after = IndicesCreate i :: after')) ∧
  (∃ evs, rtrace out'.2 = rtrace startRun ++ evs ∧
     ∀ before i after, evs = before ++ IndicesDelete i :: after →
       (∃ before', before = before' ++ [IndicesExists i]) ∧
       ((after = [] ∧ ∃ err, out'.1 = Failed (Rejection err)) ∨
        ∃ after', after = IndicesCreate i :: after')).
Proof.
  intros out out'. split.
  - exact (@deleted_indices_recreated unit runtimeStub (serversStub accepted)
             (endpointsStub VNull) flagsStub startRun out.1 out.2
             (surjective_pairing out)).
  - exact (@deleted_indices_recreated unit runtimeStub (serversStub accepted)
             endpointsRefusing flagsStub startRun out'.1 out'.2
             (surjective_pairing out')).
Defined.
